(** * v1util/zip.go: gzip stream adapters and the gzip sniffer

    A shallow embedding of
    [vendor/github.com/google/go-containerregistry/pkg/v1/v1util/zip.go]:
    [IsGzipped], [GzipReadCloser], [GzipReadCloserLevel] and
    [GunzipReadCloser], together with the parts of Go's [io] and
    [compress/gzip] packages these functions call.

    Go's mutable objects are rendered by explicit state passing; every call
    on a resource is appended to an event log, so that statements about
    "which resource is released, how often and in which order" are
    statements about that log. *)

From Stdlib Require Import String ZArith List Bool Lia PeanoNat.
Import ListNotations.

Set Implicit Arguments.

(** ** Go values *)

Abbreviation byte := Byte.byte.

(** Go's [error] values that can occur in this package. [None : option error]
    plays the role of [nil]. *)
Inductive error : Type :=
| EOF                               (* io.EOF *)
| ErrClosedPipe                     (* io.ErrClosedPipe *)
| ErrUnexpectedEOF                  (* io.ErrUnexpectedEOF *)
| ErrShortWrite                     (* io.ErrShortWrite *)
| ErrHeader                         (* gzip.ErrHeader *)
| ErrChecksum                       (* gzip.ErrChecksum *)
| ErrInvalidLevel (level : Z)       (* gzip: invalid compression level: %d *)
| ErrOther (msg : string).          (* any other error value *)

Definition error_eqb (a b : error) : bool :=
  match a, b with
  | EOF, EOF => true
  | ErrClosedPipe, ErrClosedPipe => true
  | ErrUnexpectedEOF, ErrUnexpectedEOF => true
  | ErrShortWrite, ErrShortWrite => true
  | ErrHeader, ErrHeader => true
  | ErrChecksum, ErrChecksum => true
  | ErrInvalidLevel x, ErrInvalidLevel y => Z.eqb x y
  | ErrOther x, ErrOther y => String.eqb x y
  | _, _ => false
  end.

(** [err == io.EOF] *)
Definition is_EOF (err : option error) : bool :=
  match err with
  | Some EOF => true
  | _ => false
  end.

(** ** Readable sources ([io.Reader] / [io.ReadCloser])

    A source is given by its script: the results its successive [Read] calls
    produce. An entry [(chunk, err)] is a call that returns the bytes of
    [chunk] together with [err]; when the caller's buffer is shorter than
    [chunk] the call fills the buffer, returns a [nil] error, and the rest of
    the entry stays for the next call. Past the end of the script every
    [Read] returns [0, io.EOF]. [close_result] is what [Close] returns. *)
Record source : Type := mkSource {
  script : list (list byte * option error);
  close_result : option error
}.

(** [r.Read(p)] with [len(p) = n]: the bytes stored into [p[0:len]], the
    error, and the source afterwards. *)
Definition source_Read (r : source) (n : nat)
  : list byte * option error * source :=
  match script r with
  | [] => ([], Some EOF, r)
  | (chunk, err) :: rest =>
      if length chunk <=? n
      then (chunk, err, mkSource rest (close_result r))
      else (firstn n chunk, None,
            mkSource ((skipn n chunk, err) :: rest) (close_result r))
  end.

(** The buffer [p] after a [Read] that stored [bs] into its front. *)
Definition fill (p bs : list byte) : list byte :=
  bs ++ skipn (length bs) p.

(** [bytes.Equal] *)
Fixpoint bytes_Equal (a b : list byte) : bool :=
  match a, b with
  | [], [] => true
  | x :: a', y :: b' => Byte.eqb x y && bytes_Equal a' b'
  | _, _ => false
  end.

(** ** The sniffer *)

(** [var gzipMagicHeader = []byte{'\x1f', '\x8b'}] *)
Definition gzipMagicHeader : list byte := [Byte.x1f; Byte.x8b].

(** [IsGzipped]: one [Read] into a fresh 2-byte buffer.  The third component
    is the source after the call (the bytes read are consumed). *)
Definition IsGzipped (r : source) : bool * option error * source :=
  let magicHeader := [Byte.x00; Byte.x00] in
  let '(bs, err, r') := source_Read r 2 in
  let magicHeader := fill magicHeader bs in
  if (length bs =? 0) && is_EOF err then (false, None, r')
  else match err with
       | Some e => (false, Some e, r')
       | None => (bytes_Equal magicHeader gzipMagicHeader, None, r')
       end.

(** What the sniffer reports: the [bool] and the [error]. *)
Definition sniff (r : source) : bool * option error :=
  fst (IsGzipped r).

(** What the first [Read] into a 2-byte buffer returns. *)
Definition first_read (r : source) : list byte * option error :=
  fst (source_Read r 2).

(** The bytes a source holds before its first error or end of stream. *)
Fixpoint script_bytes (s : list (list byte * option error)) : list byte :=
  match s with
  | [] => []
  | (chunk, None) :: rest => chunk ++ script_bytes rest
  | (chunk, Some _) :: _ => chunk
  end.

(** How the stream of a script ends: [None] for a clean end of stream
    (the script runs out, or an entry carries [io.EOF]), [Some e] for the
    first read error [e]. *)
Fixpoint script_end (s : list (list byte * option error)) : option error :=
  match s with
  | [] => None
  | (_, None) :: rest => script_end rest
  | (_, Some EOF) :: _ => None
  | (_, Some e) :: _ => Some e
  end.

(** ** The event log *)

(** One entry per call on a resource, in the order the calls happen. *)
Inductive event : Type :=
| EvRead (n : nat) (err : option error)     (* r.Read: n bytes and err *)
| EvGwWrite (n : nat)                       (* gw.Write(p), len(p) = n *)
| EvPwWrite (n : nat) (err : option error)  (* pw.Write: n bytes taken, err *)
| EvGwClose                                 (* gw.Close() *)
| EvRClose                                  (* r.Close() *)
| EvPwClose                                 (* pw.Close() *)
| EvPwCloseWithError (err : option error)   (* pw.CloseWithError(err) *)
| EvGrClose.                                (* gr.Close() *)

Definition releases_r (e : event) : bool :=
  match e with EvRClose => true | _ => false end.

Definition releases_gw (e : event) : bool :=
  match e with EvGwClose => true | _ => false end.

Definition releases_gr (e : event) : bool :=
  match e with EvGrClose => true | _ => false end.

Definition releases_pw (e : event) : bool :=
  match e with EvPwClose | EvPwCloseWithError _ => true | _ => false end.

Definition copies (e : event) : bool :=
  match e with EvRead _ _ | EvGwWrite _ | EvPwWrite _ _ => true | _ => false end.

(** How many entries of a log satisfy [f]. *)
Definition count (f : event -> bool) (log : list event) : nat :=
  length (filter f log).

(** The position of the first entry that satisfies [f]. *)
Fixpoint first_index (f : event -> bool) (log : list event) : option nat :=
  match log with
  | [] => None
  | e :: rest =>
      if f e then Some 0
      else match first_index f rest with
           | Some i => Some (S i)
           | None => None
           end
  end.

(** [precedes f g log]: both kinds of entry occur, and the first [f] entry
    comes strictly before the first [g] entry. *)
Definition precedes (f g : event -> bool) (log : list event) : bool :=
  match first_index f log, first_index g log with
  | Some i, Some j => i <? j
  | _, _ => false
  end.

(** ** [io.Pipe]

    Go's pipe is synchronous: a [Write] returns once the reader has taken the
    bytes, or once either end is closed.  The state below is the pipe's two
    once-set errors ([rerr], set by closing the read end; [werr], set by
    closing the write end), the bytes the consumer has taken so far, and the
    consumer itself: [patience = None] is a consumer that keeps reading until
    the stream ends, [patience = Some k] one that takes [k] more bytes and
    then calls [Close] on the read end without draining it. *)
Record pipe : Type := mkPipe {
  rerr : option error;
  werr : option error;
  delivered : list byte;
  patience : option nat
}.

(** [onceError.Store]: the first error stored stays. *)
Definition store_once (old : option error) (e : error) : option error :=
  match old with
  | Some _ => old
  | None => Some e
  end.

(** The [done] channel is closed by the first close of either end. *)
Definition pipe_done (p : pipe) : bool :=
  match rerr p, werr p with
  | None, None => false
  | _, _ => true
  end.

Definition closeRead (err : option error) (p : pipe) : pipe :=
  let e := match err with None => ErrClosedPipe | Some e => e end in
  mkPipe (store_once (rerr p) e) (werr p) (delivered p) (patience p).

Definition closeWrite (err : option error) (p : pipe) : pipe :=
  let e := match err with None => EOF | Some e => e end in
  mkPipe (rerr p) (store_once (werr p) e) (delivered p) (patience p).

Definition readCloseError (p : pipe) : error :=
  match rerr p, werr p with
  | None, Some we => we
  | _, _ => ErrClosedPipe
  end.

Definition writeCloseError (p : pipe) : error :=
  match werr p, rerr p with
  | None, Some re => re
  | _, _ => ErrClosedPipe
  end.

(** The consumer closes the read end as soon as it has taken all the bytes it
    wanted. *)
Definition consumer_turn (p : pipe) : pipe :=
  match patience p with
  | Some 0 => closeRead None p
  | _ => p
  end.

(** [io.Pipe()], with the consumer that will hold the read end. *)
Definition io_Pipe (consumer : option nat) : pipe :=
  consumer_turn (mkPipe None None [] consumer).

(** [pipe.write]: bytes taken by the reader, error, pipe afterwards. *)
Definition pipe_write (p : pipe) (b : list byte) : nat * option error * pipe :=
  if pipe_done p then (0, Some (writeCloseError p), p)
  else
    let taken := match patience p with
                 | None => b
                 | Some k => firstn k b
                 end in
    let left := match patience p with
                | None => None
                | Some k => Some (k - length taken)
                end in
    let p' := consumer_turn
                (mkPipe (rerr p) (werr p) (delivered p ++ taken) left) in
    if length taken <? length b
    then (length taken, Some (writeCloseError p'), p')
    else (length b, None, p').

(** [pipe.read] once no writer is active any more: [None] is a read that
    blocks for ever (neither end closed), otherwise the read returns no byte
    and [readCloseError]. *)
Definition pr_Read (p : pipe) : option (nat * error) :=
  if pipe_done p then Some (0, readCloseError p) else None.

(** ** [compress/gzip], the write side

    The compression algorithm is a collaborator of this package, not part of
    it: a compressor is any state machine that turns each [Write] and the
    final [Close] into a sequence of writes on the underlying writer. *)
Class Compressor : Type := {
  enc : Type;
  enc_init : Z -> enc;
  enc_write : enc -> list byte -> enc * list (list byte);
  enc_close : enc -> list (list byte)
}.

(** [compress/flate] constants re-exported by [compress/gzip]. *)
Definition gzip_HuffmanOnly : Z := -2.
Definition gzip_BestSpeed : Z := 1.
Definition gzip_BestCompression : Z := 9.

Definition valid_level (level : Z) : bool :=
  (gzip_HuffmanOnly <=? level)%Z && (level <=? gzip_BestCompression)%Z.

(** The state of the bridge: the input source [r], the pipe, the log. *)
Record world : Type := mkWorld {
  w_r : source;
  w_pipe : pipe;
  w_log : list event
}.

Definition record (e : event) (w : world) : world :=
  mkWorld (w_r w) (w_pipe w) (w_log w ++ [e]).

Definition pw_Write (b : list byte) (w : world) : nat * option error * world :=
  let '(n, err, p') := pipe_write (w_pipe w) b in
  (n, err, record (EvPwWrite n err) (mkWorld (w_r w) p' (w_log w))).

(** [pw.CloseWithError(err)]; always returns [nil]. *)
Definition pw_CloseWithError (err : option error) (w : world)
  : option error * world :=
  (None, record (EvPwCloseWithError err)
           (mkWorld (w_r w) (closeWrite err (w_pipe w)) (w_log w))).

(** [pw.Close()], that is [CloseWithError(nil)]. *)
Definition pw_Close (w : world) : option error * world :=
  (None, record EvPwClose
           (mkWorld (w_r w) (closeWrite None (w_pipe w)) (w_log w))).

Definition r_Read (n : nat) (w : world) : list byte * option error * world :=
  let '(bs, err, r') := source_Read (w_r w) n in
  (bs, err, record (EvRead (length bs) err) (mkWorld r' (w_pipe w) (w_log w))).

Definition r_Close (w : world) : option error * world :=
  (close_result (w_r w), record EvRClose w).

(** The writes a compressor issues on the pipe, in order, up to the first one
    that fails. *)
Fixpoint write_chunks (outs : list (list byte)) (w : world)
  : option error * world :=
  match outs with
  | [] => (None, w)
  | c :: cs =>
      let '(_, err, w1) := pw_Write c w in
      match err with
      | Some e => (Some e, w1)
      | None => write_chunks cs w1
      end
  end.

(** An upper bound on the number of [Read] calls that return a [nil] error:
    each such call either drops an entry of the script or shortens its first
    chunk. *)
Fixpoint script_fuel (s : list (list byte * option error)) : nat :=
  match s with
  | [] => 0
  | (chunk, _) :: rest => S (length chunk + script_fuel rest)
  end.

(** The size of the buffer [io.Copy] allocates. *)
Definition copy_buf_size : nat := 32 * 1024.

Section Bridge.

Context {C : Compressor}.

(** [gzip.Writer]: the compressor, the sticky error, the closed flag. *)
Record gzip_Writer : Type := mkWriter {
  z_enc : enc;
  z_err : option error;
  z_closed : bool
}.

(** [gzip.NewWriterLevel(pw, level)] *)
Definition gzip_NewWriterLevel (level : Z) : gzip_Writer + error :=
  if (level <? gzip_HuffmanOnly)%Z || (gzip_BestCompression <? level)%Z
  then inr (ErrInvalidLevel level)
  else inl (mkWriter (enc_init level) None false).

(** [gw.Write(p)]: a write that fails leaves its error in the writer. *)
Definition gw_Write (z : gzip_Writer) (p : list byte) (w : world)
  : nat * option error * gzip_Writer * world :=
  let w := record (EvGwWrite (length p)) w in
  match z_err z with
  | Some e => (0, Some e, z, w)
  | None =>
      let '(e', outs) := enc_write (z_enc z) p in
      let '(err, w1) := write_chunks outs w in
      match err with
      | Some e => (0, Some e, mkWriter e' (Some e) (z_closed z), w1)
      | None => (length p, None, mkWriter e' None (z_closed z), w1)
      end
  end.

(** [gw.Close()]: flushes what the compressor still holds and the trailer. *)
Definition gw_Close (z : gzip_Writer) (w : world)
  : option error * gzip_Writer * world :=
  let w := record EvGwClose w in
  match z_err z with
  | Some e => (Some e, z, w)
  | None =>
      if z_closed z then (None, z, w)
      else
        let '(err, w1) := write_chunks (enc_close (z_enc z)) w in
        (err, mkWriter (z_enc z) err true, w1)
  end.

(** The loop of [io.Copy(gw, r)] ([io.copyBuffer]); [fuel] bounds the number
    of iterations. *)
Fixpoint copyBuffer (fuel : nat) (z : gzip_Writer) (w : world)
  : option error * gzip_Writer * world :=
  match fuel with
  | 0 => (Some (ErrOther "unreachable"), z, w)
  | S fuel' =>
      let '(buf, er, w1) := r_Read copy_buf_size w in
      let nr := length buf in
      let '(ew, z2, w2) :=
        if 0 <? nr then
          let '(nw, ew, z', w') := gw_Write z buf w1 in
          match ew with
          | Some e => (Some e, z', w')
          | None => if nr =? nw then (None, z', w')
                    else (Some ErrShortWrite, z', w')
          end
        else (None, z, w1) in
      match ew with
      | Some e => (Some e, z2, w2)
      | None =>
          match er with
          | Some e => (if is_EOF er then None else Some e, z2, w2)
          | None => copyBuffer fuel' z2 w2
          end
      end
  end.

(** [io.Copy(gw, r)]; the number of bytes copied is dropped, as the caller
    drops it. *)
Definition io_Copy (z : gzip_Writer) (w : world)
  : option error * gzip_Writer * world :=
  copyBuffer (S (script_fuel (script (w_r w)))) z w.

(** The body of the [go func() error { ... }()] statement.  A [return]
    evaluates its operand first and runs the deferred calls afterwards, last
    deferred first. *)
Definition producer (level : Z) (w : world) : option error * world :=
  match gzip_NewWriterLevel level with
  | inr err => pw_CloseWithError (Some err) w
  | inl gw =>
      let '(err, gw, w) := io_Copy gw w in
      match err with
      | Some e =>
          let '(ret, w) := pw_CloseWithError (Some e) w in
          let '(_, gw, w) := gw_Close gw w in
          let '(_, w) := r_Close w in
          (ret, w)
      | None =>
          let '(_, gw, w) := gw_Close gw w in
          let '(_, w) := r_Close w in
          let '(_, w) := pw_Close w in
          (None, w)
      end
  end.

(** [GzipReadCloserLevel(r, level)]: the state once the producer task it
    starts has run against the given consumer.  The returned reader is the
    read end of [w_pipe]. *)
Definition GzipReadCloserLevel (r : source) (level : Z) (consumer : option nat)
  : world :=
  snd (producer level (mkWorld r (io_Pipe consumer) [])).

(** [GzipReadCloser(r)] *)
Definition GzipReadCloser (r : source) (consumer : option nat) : world :=
  GzipReadCloserLevel r gzip_BestSpeed consumer.

(** All the bytes a compressor writes downstream when it is fed [chunks] one
    [Write] each. *)
Fixpoint enc_feed (e : enc) (chunks : list (list byte)) : enc * list byte :=
  match chunks with
  | [] => (e, [])
  | c :: cs =>
      let '(e1, outs) := enc_write e c in
      let '(e2, rest) := enc_feed e1 cs in
      (e2, concat outs ++ rest)
  end.

(** The complete compressed stream of [chunks] at [level]. *)
Definition enc_stream (level : Z) (chunks : list (list byte)) : list byte :=
  let '(e, out) := enc_feed (enc_init level) chunks in
  out ++ concat (enc_close e).

End Bridge.

(** ** [compress/gzip], the read side

    [gzip.Reader] as this package sees it: the decompressed bytes it still
    has to hand out, the error its [Read] returns after them ([io.EOF] for a
    complete stream), and the [err] field of its [flate] decompressor, which
    [Close] returns. *)
Record gzip_Reader : Type := mkReader {
  pending : list byte;
  final : error;
  final_ferr : option error;
  decompressor_err : option error
}.

(** The decompression algorithm, like the compressor, is a collaborator:
    [gzip_open bs term] is what [gzip.NewReader] makes of an upstream that
    delivers the bytes [bs] and then ends cleanly ([term = None]) or with the
    read error [term]: either the header error, or the payload, the final
    error of [Read] and the final error of the [flate] decompressor. *)
Class Decompressor : Type := {
  gzip_open : list byte -> option error
              -> list byte * error * option error + error
}.

(** The state of the unzipping wrapper. *)
Record gworld : Type := mkGworld {
  g_r : source;
  g_gr : gzip_Reader;
  g_log : list event
}.

(** [gr.Read(p)], [len(p) = n].  The final error is returned by a [Read] of
    its own, after the last bytes, and the decompressor's error is set by
    that [Read]; a real reader may decompress ahead, return its last bytes
    together with the error, and have the error set before the caller has
    seen it.  The properties below read the wrapper to completion or close
    it unread, where the two agree. *)
Definition gr_Read (n : nat) (w : gworld) : list byte * option error * gworld :=
  let gr := g_gr w in
  match pending gr with
  | [] =>
      ([], Some (final gr),
       mkGworld (g_r w)
         (mkReader [] (final gr) (final_ferr gr) (final_ferr gr)) (g_log w))
  | _ =>
      (firstn n (pending gr), None,
       mkGworld (g_r w)
         (mkReader (skipn n (pending gr)) (final gr) (final_ferr gr)
            (decompressor_err gr))
         (g_log w))
  end.

(** [gr.Close()] is [decompressor.Close()]:
    [if f.err == io.EOF { return nil }; return f.err]. *)
Definition gr_Close (w : gworld) : option error * gworld :=
  let w' := mkGworld (g_r w) (g_gr w) (g_log w ++ [EvGrClose]) in
  if is_EOF (decompressor_err (g_gr w)) then (None, w')
  else (decompressor_err (g_gr w), w').

(** [r.Close()] on the wrapped source. *)
Definition g_r_Close (w : gworld) : option error * gworld :=
  (close_result (g_r w), mkGworld (g_r w) (g_gr w) (g_log w ++ [EvRClose])).

(** Modelled from the spec: the [readAndCloser] type, declared in another
    file of the package: a composite source whose reads delegate to the
    reader it embeds and whose release operation is its [CloseFunc]. *)
Record readAndCloser : Type := mkReadAndCloser {
  Reader : nat -> gworld -> list byte * option error * gworld;
  CloseFunc : gworld -> option error * gworld
}.

Definition rac_Read (rac : readAndCloser) := Reader rac.
Definition rac_Close (rac : readAndCloser) := CloseFunc rac.

Section Gunzip.

Context {D : Decompressor}.

(** [gzip.NewReader(r)] *)
Definition gzip_NewReader (r : source) : gzip_Reader + error :=
  match gzip_open (script_bytes (script r)) (script_end (script r)) with
  | inr err => inr err
  | inl (payload, fin, ferr) => inl (mkReader payload fin ferr None)
  end.

(** [GunzipReadCloser(r)]: the wrapper and the state it lives in, or the
    error. *)
Definition GunzipReadCloser (r : source) : readAndCloser * gworld + error :=
  match gzip_NewReader r with
  | inr err => inr err
  | inl gr =>
      inl (mkReadAndCloser gr_Read
             (fun w =>
                match gr_Close w with
                | (Some err, w) => (Some err, w)
                | (None, w) => g_r_Close w
                end),
           mkGworld r gr [])
  end.

End Gunzip.

(** Reading a wrapper to completion, as [ioutil.ReadAll] does: [Read] until
    an error, which is dropped when it is [io.EOF]. *)
Fixpoint readAll (fuel : nat) (rac : readAndCloser) (acc : list byte)
  (w : gworld) : list byte * option error * gworld :=
  match fuel with
  | 0 => (acc, Some (ErrOther "unreachable"), w)
  | S fuel' =>
      let '(bs, err, w1) := rac_Read rac 512 w in
      match err with
      | Some e => (acc ++ bs, if is_EOF err then None else Some e, w1)
      | None => readAll fuel' rac (acc ++ bs) w1
      end
  end.

Definition ioutil_ReadAll (rac : readAndCloser) (w : gworld)
  : list byte * option error * gworld :=
  readAll (S (length (pending (g_gr w)))) rac [] w.

(** The read end of a pipe whose producer has finished, seen as a source:
    the bytes the consumer was handed, then the pipe's closing error. *)
Definition pr_source (p : pipe) : source :=
  mkSource
    ((delivered p, None) ::
     match readCloseError p with
     | EOF => []
     | e => [([], Some e)]
     end)
    None.

(** ** A stand-in codec

    A codec that stores the data as it is, between the two magic bytes and a
    one-byte end mark.  It serves to run the definitions above on concrete
    streams. *)
Definition end_mark : byte := Byte.xff.

Definition stored_compressor : Compressor := {|
  enc := bool;                         (* wroteHeader *)
  enc_init := fun _ => false;
  enc_write := fun h p =>
    (true, (if h then [] else [gzipMagicHeader]) ++ [p]);
  enc_close := fun h =>
    (if h then [] else [gzipMagicHeader]) ++ [[end_mark]]
|}.

Definition stored_open (bs : list byte) (term : option error)
  : list byte * error * option error + error :=
  match bs with
  | [] => inr (match term with None => EOF | Some e => e end)
  | b1 :: b2 :: rest =>
      if bytes_Equal [b1; b2] gzipMagicHeader then
        match term with
        | Some e => inl (rest, e, Some e)
        | None =>
            if Byte.eqb (last rest Byte.x00) end_mark
            then inl (removelast rest, EOF, Some EOF)
            else inl (rest, ErrUnexpectedEOF, Some ErrUnexpectedEOF)
        end
      else inr ErrHeader
  | _ => inr ErrUnexpectedEOF
  end.

Definition stored_decompressor : Decompressor := {|
  gzip_open := stored_open
|}.

(** ** Notions used to state the properties of the bridge *)

Unset Implicit Arguments.

(** The only value the consumer ever stores in [rerr] is
    [io.ErrClosedPipe]: it holds the read end as an [io.ReadCloser] and can
    only call [Close] on it. *)
Definition pipe_ok (p : pipe) : Prop :=
  rerr p = None \/ rerr p = Some ErrClosedPipe.

Section CopyPhase.

Context {C : Compressor}.

(** The state in which the producer leaves [io.Copy], for a level the codec
    accepts. *)
Definition copy_phase (r : source) (level : Z) (consumer : option nat)
  : option error * gzip_Writer * world :=
  io_Copy (mkWriter (enc_init level) None false)
    (mkWorld r (io_Pipe consumer) []).

(** The error [io.Copy] returns to the producer. *)
Definition copy_result (r : source) (level : Z) (consumer : option nat)
  : option error :=
  fst (fst (copy_phase r level consumer)).

End CopyPhase.

(** What the calls of the copy phase have in common: they add only read and
    write entries to the log, leave [werr] alone, and never reopen the read
    end; against a consumer that never gives up the read end stays open; on a
    pipe that is already closed they change nothing. *)
Record copy_effect (w w' : world) : Prop := mkCopyEffect {
  ce_log : exists l, w_log w' = w_log w ++ l /\ forallb copies l = true;
  ce_werr : werr (w_pipe w') = werr (w_pipe w);
  ce_ok : pipe_ok (w_pipe w) -> pipe_ok (w_pipe w');
  ce_rerr : rerr (w_pipe w') = None -> rerr (w_pipe w) = None;
  ce_patient : patience (w_pipe w) = None ->
               patience (w_pipe w') = None /\
               rerr (w_pipe w') = rerr (w_pipe w);
  ce_done : pipe_done (w_pipe w) = true -> w_pipe w' = w_pipe w
}.

(** A gzip stream whose first [Read] returns a single byte. *)
Definition short_read_stream : source :=
  mkSource [([Byte.x1f], None); ([Byte.x8b; Byte.x08; Byte.x00], None)] None.

(** The same one-byte stream, with the end of stream arriving on a later
    [Read], and together with the byte. *)
Definition one_byte_then_EOF : source :=
  mkSource [([Byte.x1f], None)] None.

Definition one_byte_with_EOF : source :=
  mkSource [([Byte.x1f], Some EOF)] None.

(** A gzip stream cut off after its header and one byte of data. *)
Definition truncated_stream : source :=
  mkSource [([Byte.x1f; Byte.x8b; Byte.x61], None)] None.

(** A source whose second [Read] returns one byte together with an error. *)
Definition failing_source : source :=
  mkSource [([Byte.x61; Byte.x62], None);
            ([Byte.x63], Some (ErrOther "disk"))] None.

(** The same state, with another result for the [Close] of the source. *)
Definition retag (cr : option error) (w : world) : world :=
  mkWorld (mkSource (script (w_r w)) cr) (w_pipe w) (w_log w).

(** Kinds of log entries, and the part of a log that follows the first
    entry of a kind. *)
Definition is_read (e : event) : bool :=
  match e with EvRead _ _ => true | _ => false end.

Definition is_gw_write (e : event) : bool :=
  match e with EvGwWrite _ => true | _ => false end.

Definition is_pw_write (e : event) : bool :=
  match e with EvPwWrite _ _ => true | _ => false end.

Definition releases (e : event) : bool :=
  releases_pw e || releases_gw e || releases_r e.

Fixpoint after (f : event -> bool) (log : list event) : list event :=
  match log with
  | [] => []
  | e :: rest => if f e then rest else after f rest
  end.

(** Two pipes that have been written the same bytes, one held by a
    consumer that takes [k] bytes in all, the other by a consumer that reads
    to the end.  [lock]: the first consumer still wants bytes, and both have
    received the same.  [cut]: the first consumer has closed its end, and has
    received the first [k] bytes of what the second has. *)
Definition lock (k : nat) (pk pn : pipe) : Prop :=
  rerr pk = None /\ werr pk = None /\
  rerr pn = None /\ werr pn = None /\ patience pn = None /\
  delivered pk = delivered pn /\
  exists j, 0 < j /\ patience pk = Some j /\ length (delivered pk) + j = k.

Definition cut (k : nat) (pk pn : pipe) : Prop :=
  rerr pk <> None /\
  delivered pk = firstn k (delivered pn) /\
  k <= length (delivered pn).

Definition lockW (k : nat) (wk wn : world) : Prop :=
  w_r wk = w_r wn /\ lock k (w_pipe wk) (w_pipe wn).

Definition cutW (k : nat) (wk wn : world) : Prop :=
  cut k (w_pipe wk) (w_pipe wn).

(** The pipe of [w'] holds what the pipe of [w] holds, and possibly more. *)
Definition grows (w w' : world) : Prop :=
  exists x, delivered (w_pipe w') = delivered (w_pipe w) ++ x.

Section Finish.

Context {C : Compressor}.

(** What the producer does once [io.Copy] has returned. *)
Definition finish (res : option error * gzip_Writer * world) : world :=
  let '(err, gw, w) := res in
  match err with
  | Some e =>
      snd (r_Close (snd (gw_Close gw (snd (pw_CloseWithError (Some e) w)))))
  | None =>
      snd (pw_Close (snd (r_Close (snd (gw_Close gw w)))))
  end.

End Finish.

(** * Properties *)

(** Splits a conjunction into its parts, without introducing anything. *)
Ltac splits := repeat match goal with |- _ /\ _ => split end.

(** ** The sniffer *)

Lemma bytes_Equal_eq (a b : list byte) : bytes_Equal a b = true <-> a = b.
Proof.
  revert b; induction a as [|x a IH]; intros [|y b]; simpl;
    try (split; [discriminate | congruence]); try tauto.
  rewrite andb_true_iff, IH. split.
  - intros [Hxy ->]. apply Byte.byte_dec_bl in Hxy. congruence.
  - intros H; inversion H; subst. split; [apply Byte.byte_dec_lb|]; reflexivity.
Qed.

(** The first [Read] hands out a prefix of the stream; after a full 2-byte
    read these are its first two bytes. *)
Lemma first_read_prefix (r : source) (bs : list byte) (err : option error) :
  first_read r = (bs, err) ->
  exists tl, script_bytes (script r) = bs ++ tl.
Proof.
  unfold first_read, source_Read. destruct r as [s cr]; cbn [script].
  destruct s as [|[chunk e] rest].
  - intros H; inversion H; subst. exists []. reflexivity.
  - destruct (length chunk <=? 2) eqn:Hlen; cbn [fst script_bytes];
      intros H; apply pair_equal_spec in H; destruct H as [<- <-].
    + destruct e; [exists [] | exists (script_bytes rest)];
        rewrite ?app_nil_r; reflexivity.
    + destruct e as [e|].
      * exists (skipn 2 chunk). now rewrite firstn_skipn.
      * exists (skipn 2 chunk ++ script_bytes rest).
        now rewrite app_assoc, firstn_skipn.
Qed.

(** What [IsGzipped] reports, in terms of its single [Read]. *)
Lemma sniff_first_read (r : source) :
  sniff r =
  let '(bs, err) := first_read r in
  if (length bs =? 0) && is_EOF err then (false, None)
  else match err with
       | Some e => (false, Some e)
       | None => (bytes_Equal (fill [Byte.x00; Byte.x00] bs) gzipMagicHeader,
                  None)
       end.
Proof.
  unfold sniff, IsGzipped, first_read.
  destruct (source_Read r 2) as [[bs err] r']; simpl.
  destruct ((length bs =? 0) && is_EOF err); [reflexivity|].
  destruct err; reflexivity.
Qed.

Lemma fill_magic (bs : list byte) :
  fill [Byte.x00; Byte.x00] bs = gzipMagicHeader <-> bs = gzipMagicHeader.
Proof.
  unfold fill, gzipMagicHeader.
  destruct bs as [|b1 [|b2 [|b3 bs]]]; simpl; split; intros H;
    try discriminate; try (inversion H; fail); auto.
Qed.

(** C8: for every empty source (its first read returns zero bytes together
    with end of stream) the sniffer reports no match and no error. *)
Theorem IsGzipped_empty (r : source) :
  first_read r = ([], Some EOF) -> sniff r = (false, None).
Proof.
  intros H. rewrite sniff_first_read, H. reflexivity.
Qed.

Lemma IsGzipped_empty_witness :
  first_read (mkSource [] None) = ([], Some EOF) /\
  sniff (mkSource [] None) = (false, None).
Proof.
  split; [reflexivity | apply IsGzipped_empty; reflexivity].
Defined.

(** What the code computes: a match is reported exactly when the single
    [Read] call returns the two magic bytes 0x1F 0x8B with a nil error;
    every source whose first two bytes differ from the magic header is
    reported as no match. *)
Theorem IsGzipped_match_iff (r : source) :
  (fst (sniff r) = true <-> first_read r = (gzipMagicHeader, None)) /\
  (firstn 2 (script_bytes (script r)) <> gzipMagicHeader ->
   fst (sniff r) = false).
Proof.
  assert (Hiff : fst (sniff r) = true <-> first_read r = (gzipMagicHeader, None)).
  { rewrite sniff_first_read. destruct (first_read r) as [bs err].
    destruct ((length bs =? 0) && is_EOF err) eqn:Hempty.
    - apply andb_true_iff in Hempty. destruct Hempty as [_ Heof].
      destruct err as [e|]; [|discriminate].
      split; [discriminate | intros H; inversion H].
    - destruct err as [e|]; cbn [fst].
      + split; [discriminate | intros H; inversion H].
      + rewrite bytes_Equal_eq, fill_magic.
        split; [intros -> | intros H; inversion H]; reflexivity. }
  split; [exact Hiff|].
  intros Hdiff. destruct (fst (sniff r)) eqn:Hs; [|reflexivity].
  exfalso. apply Hdiff. destruct Hiff as [Hread _].
  destruct (first_read_prefix r _ _ (Hread eq_refl)) as [tl ->]. reflexivity.
Qed.

Lemma IsGzipped_match_iff_witness :
  fst (sniff (mkSource [([Byte.x1f; Byte.x8b; Byte.x08], None)] None)) = true /\
  fst (sniff (mkSource [([Byte.x50; Byte.x4b; Byte.x03], None)] None)) = false.
Proof.
  split.
  - apply (proj1 (IsGzipped_match_iff
                    (mkSource [([Byte.x1f; Byte.x8b; Byte.x08], None)] None))).
    reflexivity.
  - apply (proj2 (IsGzipped_match_iff
                    (mkSource [([Byte.x50; Byte.x4b; Byte.x03], None)] None))).
    simpl. discriminate.
Defined.

(** Not every source that begins with the magic header is reported as a
    match: the first [Read] may return only the first byte. *)
Lemma IsGzipped_short_read_counterexample :
  ~ (forall r : source,
       firstn 2 (script_bytes (script r)) = gzipMagicHeader ->
       fst (sniff r) = true).
Proof.
  intros H.
  specialize (H (mkSource [([Byte.x1f], None); ([Byte.x8b; Byte.x08], None)]
                   None) eq_refl).
  discriminate H.
Qed.

(** What the code computes on a source that holds exactly one byte before a
    clean end of stream: no match, together with the error of the first
    [Read]: no error when that [Read] returns without one, and [io.EOF] when
    it returns the byte and the end of stream at once. *)
Theorem IsGzipped_one_byte (r : source) :
  script_end (script r) = None ->
  length (script_bytes (script r)) = 1 ->
  sniff r = (false, snd (first_read r)) /\
  (snd (first_read r) = None \/
   first_read r = (script_bytes (script r), Some EOF)).
Proof.
  intros Hend Hlen. rewrite sniff_first_read.
  unfold first_read, source_Read. destruct r as [s cr]; cbn [script] in *.
  destruct s as [|[chunk e] rest]; [discriminate Hlen|].
  cbn [script_bytes script_end] in *.
  assert (Hchunk : length chunk <= 1).
  { destruct e; [lia|]. rewrite length_app in Hlen. lia. }
  destruct (length chunk <=? 2) eqn:Hle;
    [|apply Nat.leb_gt in Hle; lia].
  cbn [fst snd]. destruct e as [e|].
  - destruct e; try discriminate Hend.
    destruct chunk as [|b [|b' chunk]]; simpl in *; try lia.
    split; [reflexivity | right; reflexivity].
  - destruct chunk as [|b [|b' chunk]]; simpl in *; try lia;
      rewrite ?andb_false_r; (split; [reflexivity | left; reflexivity]).
Qed.

Lemma IsGzipped_one_byte_witness :
  sniff (mkSource [([Byte.x1f], None)] None) = (false, None).
Proof.
  apply (IsGzipped_one_byte (mkSource [([Byte.x1f], None)] None));
    reflexivity.
Defined.

(** Not every one-byte source is reported without an error: the byte may
    arrive together with [io.EOF]. *)
Lemma IsGzipped_one_byte_counterexample :
  ~ (forall r : source,
       script_end (script r) = None ->
       length (script_bytes (script r)) = 1 ->
       sniff r = (false, None)).
Proof.
  intros H.
  specialize (H (mkSource [([Byte.x1f], Some EOF)] None) eq_refl eq_refl).
  discriminate H.
Qed.

(** C7 fails on the code: [short_read_stream] begins with the magic header
    0x1F 0x8B, but its first [Read] returns one byte; the sniffer compares
    the half-filled buffer and reports no match, and no error. *)
Theorem IsGzipped_misses_short_read :
  firstn 2 (script_bytes (script short_read_stream)) = gzipMagicHeader /\
  first_read short_read_stream = ([Byte.x1f], None) /\
  sniff short_read_stream = (false, None).
Proof. repeat split. Qed.

(** C9 fails on the code: the two sources hold the same single byte before a
    clean end of stream; the sniffer reports no match and no error when the
    end of stream comes with a later [Read], and returns [io.EOF] as an
    error when it comes together with the byte. *)
Theorem IsGzipped_one_byte_EOF_is_error :
  script_bytes (script one_byte_with_EOF)
  = script_bytes (script one_byte_then_EOF) /\
  length (script_bytes (script one_byte_with_EOF)) = 1 /\
  script_end (script one_byte_with_EOF) = None /\
  script_end (script one_byte_then_EOF) = None /\
  sniff one_byte_then_EOF = (false, None) /\
  sniff one_byte_with_EOF = (false, Some EOF).
Proof. repeat split. Qed.

(** ** The unzipping wrapper *)

Section GunzipProperties.

Context {D : Decompressor}.

(** The release operation of the wrapper, case by case: when releasing the
    decompressing reader fails, that error is returned and the wrapped
    source is not touched; otherwise the wrapped source is released and its
    result returned. *)
Lemma GunzipReadCloser_Close (r : source) (rac : readAndCloser)
  (g0 g : gworld) :
  GunzipReadCloser r = inl (rac, g0) ->
  rac_Close rac g =
  match decompressor_err (g_gr g) with
  | None | Some EOF =>
      (close_result (g_r g),
       mkGworld (g_r g) (g_gr g) (g_log g ++ [EvGrClose; EvRClose]))
  | Some e =>
      (Some e, mkGworld (g_r g) (g_gr g) (g_log g ++ [EvGrClose]))
  end.
Proof.
  unfold GunzipReadCloser. destruct (gzip_NewReader r); [|discriminate].
  intros H; inversion H; subst; clear H.
  unfold rac_Close; cbn [CloseFunc]. unfold gr_Close, g_r_Close.
  destruct (decompressor_err (g_gr g)) as [e|]; cbn;
    [destruct e; cbn|]; rewrite <- ?app_assoc; reflexivity.
Qed.

End GunzipProperties.

(** C1 fails on the code: after reading a truncated stream to its error,
    releasing the wrapper returns the error of the decompressing reader and
    never releases the wrapped source. *)
Theorem GunzipReadCloser_Close_skips_source :
  exists rac g,
    GunzipReadCloser (D := stored_decompressor) truncated_stream
    = inl (rac, g) /\
    let '(_, rerr, g1) := ioutil_ReadAll rac g in
    let '(cerr, g2) := rac_Close rac g1 in
    rerr = Some ErrUnexpectedEOF /\
    cerr = Some ErrUnexpectedEOF /\
    g_log g2 = [EvGrClose] /\
    count releases_r (g_log g2) = 0.
Proof.
  eexists; eexists; split; [reflexivity|].
  vm_compute. repeat split.
Qed.

(** ** The bridge *)

Section BridgeProperties.

Context {C : Compressor}.

(** C10: [GzipReadCloser(r)] is [GzipReadCloserLevel(r, gzip.BestSpeed)]:
    against every consumer both leave the same source, pipe and log. *)
Theorem GzipReadCloser_is_BestSpeed (r : source) (consumer : option nat) :
  GzipReadCloser r consumer = GzipReadCloserLevel r gzip_BestSpeed consumer.
Proof. reflexivity. Qed.

Lemma gzip_NewWriterLevel_valid (level : Z) :
  valid_level level = true ->
  gzip_NewWriterLevel level = inl (mkWriter (enc_init level) None false).
Proof.
  unfold valid_level, gzip_NewWriterLevel. intros H.
  apply andb_true_iff in H. destruct H as [H1 H2].
  apply Z.leb_le in H1, H2.
  destruct (level <? gzip_HuffmanOnly)%Z eqn:E1; [apply Z.ltb_lt in E1; lia|].
  destruct (gzip_BestCompression <? level)%Z eqn:E2;
    [apply Z.ltb_lt in E2; lia|].
  reflexivity.
Qed.

Lemma gzip_NewWriterLevel_invalid (level : Z) :
  valid_level level = false ->
  gzip_NewWriterLevel level = inr (ErrInvalidLevel level).
Proof.
  unfold valid_level, gzip_NewWriterLevel. intros H.
  apply andb_false_iff in H.
  destruct H as [H|H]; apply Z.leb_gt in H.
  - apply Z.ltb_lt in H. rewrite H. reflexivity.
  - apply Z.ltb_lt in H. rewrite H, orb_true_r. reflexivity.
Qed.

(** The whole run of the producer when the compressing sink cannot be
    built. *)
Lemma GzipReadCloserLevel_invalid (r : source) (level : Z)
  (consumer : option nat) :
  valid_level level = false ->
  GzipReadCloserLevel r level consumer =
  mkWorld r (closeWrite (Some (ErrInvalidLevel level)) (io_Pipe consumer))
    [EvPwCloseWithError (Some (ErrInvalidLevel level))].
Proof.
  intros H. unfold GzipReadCloserLevel, producer.
  rewrite (gzip_NewWriterLevel_invalid _ H). reflexivity.
Qed.

(** C5: when the compressing sink cannot be built the producer does nothing
    but terminate the pipe with the construction error: no read, no write,
    the source as it was; a consumer that still holds the read end gets that
    error from its next read. *)
Theorem GzipReadCloserLevel_construction_error (r : source) (level : Z)
  (consumer : option nat) :
  valid_level level = false ->
  consumer <> Some 0 ->
  let w := GzipReadCloserLevel r level consumer in
  w_log w = [EvPwCloseWithError (Some (ErrInvalidLevel level))] /\
  count copies (w_log w) = 0 /\
  w_r w = r /\
  delivered (w_pipe w) = [] /\
  pr_Read (w_pipe w) = Some (0, ErrInvalidLevel level).
Proof.
  intros Hlevel Hc. cbv zeta.
  rewrite (GzipReadCloserLevel_invalid r level consumer Hlevel). cbn [w_log w_r w_pipe].
  repeat split.
  - destruct consumer as [[|k]|]; [congruence| |]; reflexivity.
  - destruct consumer as [[|k]|]; [congruence| |]; reflexivity.
Qed.

End BridgeProperties.

Lemma GzipReadCloserLevel_construction_error_witness :
  pr_Read (w_pipe (GzipReadCloserLevel (C := stored_compressor)
                     (mkSource [([Byte.x61], None)] None) 42 None))
  = Some (0, ErrInvalidLevel 42).
Proof.
  apply (GzipReadCloserLevel_construction_error (C := stored_compressor)
           (mkSource [([Byte.x61], None)] None) 42 None).
  - reflexivity.
  - discriminate.
Defined.

(** C2 fails on the code: with a compression level the codec rejects, the
    producer releases the write end of the pipe and returns; the input source
    is never released. *)
Theorem GzipReadCloserLevel_invalid_level_leaks_source
  (C : Compressor) (r : source) (consumer : option nat) :
  let w := GzipReadCloserLevel r 42 consumer in
  count releases_pw (w_log w) = 1 /\
  count releases_gw (w_log w) = 0 /\
  count releases_r (w_log w) = 0.
Proof.
  cbv zeta. rewrite GzipReadCloserLevel_invalid by reflexivity.
  repeat split.
Qed.

(** ** The pipe *)

Lemma pipe_ok_io_Pipe (consumer : option nat) : pipe_ok (io_Pipe consumer).
Proof. destruct consumer as [[|k]|]; [right | left | left]; reflexivity. Qed.

Lemma werr_io_Pipe (consumer : option nat) : werr (io_Pipe consumer) = None.
Proof. destruct consumer as [[|k]|]; reflexivity. Qed.

Lemma consumer_turn_werr (p : pipe) : werr (consumer_turn p) = werr p.
Proof. unfold consumer_turn. destruct (patience p) as [[|k]|]; reflexivity. Qed.

Lemma consumer_turn_delivered (p : pipe) :
  delivered (consumer_turn p) = delivered p.
Proof. unfold consumer_turn. destruct (patience p) as [[|k]|]; reflexivity. Qed.

Lemma consumer_turn_patience (p : pipe) :
  patience (consumer_turn p) = patience p.
Proof.
  unfold consumer_turn. destruct (patience p) as [[|k]|] eqn:E; cbn; auto.
Qed.

Lemma consumer_turn_ok (p : pipe) : pipe_ok p -> pipe_ok (consumer_turn p).
Proof.
  unfold consumer_turn, pipe_ok. destruct (patience p) as [[|k]|]; auto.
  intros [H|H]; cbn; rewrite H; auto.
Qed.

(** A consumer_turn that leaves the read end open is a consumer that still
    wants bytes. *)
Lemma consumer_turn_open (p : pipe) :
  rerr (consumer_turn p) = None -> rerr p = None /\ patience p <> Some 0.
Proof.
  unfold consumer_turn. destruct (patience p) as [[|k]|]; cbn;
    try (intros H; split; [exact H | discriminate]).
  destruct (rerr p); discriminate.
Qed.

(** What a write on the pipe does. *)
Lemma pipe_write_spec (p p' : pipe) (b : list byte) (n : nat)
  (err : option error) :
  pipe_write p b = (n, err, p') ->
  werr p' = werr p /\
  (pipe_ok p -> pipe_ok p' /\ (err = None \/ err = Some ErrClosedPipe)) /\
  (rerr p' = None -> rerr p = None) /\
  (rerr p' = None -> werr p = None ->
   err = None /\ delivered p' = delivered p ++ b) /\
  (patience p = None -> patience p' = None /\ rerr p' = rerr p) /\
  (pipe_done p = true -> p' = p).
Proof.
  unfold pipe_write. destruct (pipe_done p) eqn:Hdone.
  - intros H; inversion H; subst; clear H.
    splits; auto.
    + intros Hok. split; [exact Hok|]. right. unfold writeCloseError.
      destruct (werr p'); [reflexivity|].
      destruct Hok as [H|H]; rewrite H; reflexivity.
    + intros H H0. unfold pipe_done in Hdone. rewrite H, H0 in Hdone.
      discriminate.
  - assert (Hr : rerr p = None /\ werr p = None).
    { unfold pipe_done in Hdone. destruct (rerr p), (werr p);
        try discriminate; auto. }
    destruct Hr as [Hr Hw].
    set (taken := match patience p with None => b | Some k => firstn k b end).
    set (left := match patience p with
                 | None => None
                 | Some k => Some (k - length taken)
                 end).
    set (q := mkPipe (rerr p) (werr p) (delivered p ++ taken) left).
    assert (Hq : pipe_ok q) by (left; exact Hr).
    assert (Hopen : rerr (consumer_turn q) = None -> taken = b).
    { intros H. apply consumer_turn_open in H. destruct H as [_ H].
      subst q left taken; cbn in H.
      destruct (patience p) as [k|]; [|reflexivity].
      apply firstn_all2.
      destruct (Nat.le_gt_cases (length b) k) as [Hle|Hgt]; [exact Hle|].
      exfalso. apply H. f_equal. rewrite length_firstn. lia. }
    assert (Hpat : patience p = None ->
                   patience (consumer_turn q) = None /\
                   rerr (consumer_turn q) = rerr p).
    { intros H. rewrite consumer_turn_patience. unfold consumer_turn.
      subst q left; cbn. rewrite H. split; reflexivity. }
    destruct (length taken <? length b) eqn:Hshort;
      intros H; inversion H; subst n err p'; clear H;
      rewrite consumer_turn_werr; cbn [werr q]; splits; auto;
      try discriminate.
    + intros _. split; [apply consumer_turn_ok, Hq|].
      right. unfold writeCloseError.
      rewrite consumer_turn_werr; cbn [werr q]. rewrite Hw.
      destruct (consumer_turn_ok q Hq) as [H|H]; rewrite H; reflexivity.
    + intros H _. apply Hopen in H. apply Nat.ltb_lt in Hshort.
      rewrite H in Hshort. lia.
    + intros _. split; [apply consumer_turn_ok, Hq | left; reflexivity].
    + rewrite consumer_turn_delivered. intros H _.
      apply Hopen in H. cbn. rewrite H. split; reflexivity.
Qed.

(** ** Reading the source *)

Lemma source_Read_spec (r r' : source) (n : nat) (bs : list byte)
  (err : option error) :
  source_Read r n = (bs, err, r') ->
  close_result r' = close_result r /\
  match err with
  | None =>
      script_bytes (script r) = bs ++ script_bytes (script r') /\
      script_end (script r) = script_end (script r') /\
      (0 < n -> script_fuel (script r') < script_fuel (script r))
  | Some e =>
      script_bytes (script r) = bs /\
      script_end (script r) = if is_EOF err then None else Some e
  end.
Proof.
  unfold source_Read. destruct r as [s cr]; cbn [script close_result].
  destruct s as [|[chunk e] rest].
  - intros H; inversion H; subst. cbn. auto.
  - destruct (length chunk <=? n) eqn:Hlen; intros H;
      apply pair_equal_spec in H; destruct H as [H <-];
      apply pair_equal_spec in H; destruct H as [<- <-];
      cbn [script close_result script_bytes script_end script_fuel].
    + split; [reflexivity|]. destruct e as [e|].
      * split; [reflexivity | destruct e; reflexivity].
      * splits; auto. lia.
    + apply Nat.leb_gt in Hlen. split; [reflexivity|]. splits.
      * destruct e; cbn [script_bytes];
          rewrite ?app_assoc, firstn_skipn; reflexivity.
      * destruct e as [e|]; [destruct e|]; reflexivity.
      * intros Hn. rewrite length_skipn. lia.
Qed.

(** ** The producer, call by call *)

Lemma copy_effect_refl (w : world) : copy_effect w w.
Proof.
  constructor; auto. exists []. rewrite app_nil_r. auto.
Qed.

Lemma copy_effect_trans (w1 w2 w3 : world) :
  copy_effect w1 w2 -> copy_effect w2 w3 -> copy_effect w1 w3.
Proof.
  intros [[l1 [L1 Q1]] W1 O1 R1 P1 D1] [[l2 [L2 Q2]] W2 O2 R2 P2 D2].
  constructor.
  - exists (l1 ++ l2). rewrite L2, L1, app_assoc, forallb_app, Q1, Q2. auto.
  - congruence.
  - auto.
  - auto.
  - intros H. destruct (P1 H) as [H1 H2]. destruct (P2 H1) as [H3 H4].
    split; congruence.
  - intros H. rewrite D2, D1; auto. rewrite D1; auto.
Qed.

(** Logging a read or a write. *)
Lemma copy_effect_record (e : event) (w : world) :
  copies e = true -> copy_effect w (record e w).
Proof.
  intros He. constructor; cbn; auto.
  exists [e]. cbn. rewrite He. auto.
Qed.

Lemma pw_Write_spec (b : list byte) (w w' : world) (n : nat)
  (err : option error) :
  pw_Write b w = (n, err, w') ->
  copy_effect w w' /\ w_r w' = w_r w /\
  (pipe_ok (w_pipe w) -> err = None \/ err = Some ErrClosedPipe) /\
  (rerr (w_pipe w') = None -> werr (w_pipe w) = None ->
   err = None /\ delivered (w_pipe w') = delivered (w_pipe w) ++ b).
Proof.
  unfold pw_Write. destruct (pipe_write (w_pipe w) b) as [[n0 e0] p0] eqn:E.
  intros H; inversion H; subst; clear H.
  apply pipe_write_spec in E.
  destruct E as (Hw & Hok & Hr & Hopen & Hpat & Hdone).
  splits; cbn; auto.
  - constructor; cbn; auto.
    + exists [EvPwWrite n err]. auto.
    + intros H. apply Hok, H.
  - intros H. apply Hok, H.
Qed.

Lemma write_chunks_spec (outs : list (list byte)) (w w' : world)
  (err : option error) :
  write_chunks outs w = (err, w') ->
  copy_effect w w' /\ w_r w' = w_r w /\
  (pipe_ok (w_pipe w) -> err = None \/ err = Some ErrClosedPipe) /\
  (rerr (w_pipe w') = None -> werr (w_pipe w) = None ->
   err = None /\ delivered (w_pipe w') = delivered (w_pipe w) ++ concat outs).
Proof.
  revert w. induction outs as [|c cs IH]; intros w; cbn [write_chunks concat].
  - intros H; inversion H; subst. splits; auto using copy_effect_refl.
    intros _ _. rewrite app_nil_r. auto.
  - destruct (pw_Write c w) as [[n1 e1] w1] eqn:E1.
    apply pw_Write_spec in E1. destruct E1 as (Hce & Hr & Herr & Hopen).
    destruct e1 as [e|].
    + intros H; inversion H; subst; clear H. splits; auto.
      intros H1 H2. destruct (Hopen H1 H2) as [? _]. discriminate.
    + intros H. apply IH in H. destruct H as (Hce' & Hr' & Herr' & Hopen').
      splits.
      * eapply copy_effect_trans; eauto.
      * congruence.
      * intros H. apply Herr', Hce, H.
      * intros H1 H2.
        assert (Hw1 : werr (w_pipe w1) = None) by (rewrite (ce_werr _ _ Hce); exact H2).
        destruct (Hopen' H1 Hw1) as [-> Hd].
        destruct (Hopen (ce_rerr _ _ Hce' H1) H2) as [_ Hd1].
        split; [reflexivity|]. rewrite Hd, Hd1, app_assoc. reflexivity.
Qed.

Lemma r_Read_spec (n : nat) (w w' : world) (bs : list byte)
  (err : option error) :
  r_Read n w = (bs, err, w') ->
  copy_effect w w' /\ w_pipe w' = w_pipe w /\
  source_Read (w_r w) n = (bs, err, w_r w').
Proof.
  unfold r_Read. destruct (source_Read (w_r w) n) as [[bs0 e0] r0].
  intros H; inversion H; subst; clear H. cbn. splits; auto.
  constructor; cbn; auto.
  exists [EvRead (length bs) err]. auto.
Qed.

Section Copy.

Context {C : Compressor}.

Lemma gw_Write_spec (z z' : gzip_Writer) (p : list byte) (w w' : world)
  (n : nat) (err : option error) :
  gw_Write z p w = (n, err, z', w') ->
  copy_effect w w' /\ w_r w' = w_r w /\ z_closed z' = z_closed z /\
  (z_err z = None ->
   z_enc z' = fst (enc_write (z_enc z) p) /\ z_err z' = err /\
   (err = None -> n = length p) /\
   (pipe_ok (w_pipe w) -> err = None \/ err = Some ErrClosedPipe) /\
   (rerr (w_pipe w') = None -> werr (w_pipe w) = None ->
    err = None /\
    delivered (w_pipe w') =
    delivered (w_pipe w) ++ concat (snd (enc_write (z_enc z) p)))).
Proof.
  unfold gw_Write.
  pose proof (copy_effect_record (EvGwWrite (length p)) w eq_refl) as Hrec.
  destruct (z_err z) as [e|].
  - intros H; inversion H; subst; clear H. splits; auto. discriminate.
  - destruct (enc_write (z_enc z) p) as [e' outs].
    destruct (write_chunks outs (record (EvGwWrite (length p)) w))
      as [err1 w1] eqn:E.
    apply write_chunks_spec in E. destruct E as (Hce & Hr & Herr & Hopen).
    assert (Hce' : copy_effect w w1) by (eapply copy_effect_trans; eauto).
    cbn [fst snd].
    destruct err1 as [e|]; intros H; inversion H; subst; clear H;
      cbn [z_closed z_enc z_err]; splits; auto; intros _; splits; auto;
      discriminate.
Qed.

(** [gw.Close()] logs itself and then behaves like a call of the copy
    phase; on an open pipe a writer that is neither failed nor closed
    delivers everything the compressor still holds. *)
Lemma gw_Close_spec (z z' : gzip_Writer) (w w' : world)
  (err : option error) :
  gw_Close z w = (err, z', w') ->
  copy_effect (record EvGwClose w) w' /\ w_r w' = w_r w /\
  (z_err z = None -> z_closed z = false ->
   rerr (w_pipe w') = None -> werr (w_pipe w) = None ->
   err = None /\
   delivered (w_pipe w') =
   delivered (w_pipe w) ++ concat (enc_close (z_enc z))).
Proof.
  unfold gw_Close. destruct (z_err z) as [e|].
  - intros H; inversion H; subst; clear H.
    splits; auto using copy_effect_refl. discriminate.
  - destruct (z_closed z).
    + intros H; inversion H; subst; clear H.
      splits; auto using copy_effect_refl. discriminate.
    + destruct (write_chunks (enc_close (z_enc z)) (record EvGwClose w))
        as [err1 w1] eqn:E.
      apply write_chunks_spec in E. destruct E as (Hce & Hr & Herr & Hopen).
      intros H; inversion H; subst; clear H. splits; auto.
Qed.

(** The copy loop.  It never returns [io.EOF]; and as long as the consumer
    keeps the read end open, every byte of the source goes through the
    compressor, everything the compressor writes reaches the consumer, and
    the loop ends the way the source does. *)
Lemma copyBuffer_spec (fuel : nat) :
  forall (z z' : gzip_Writer) (w w' : world) (err : option error),
  script_fuel (script (w_r w)) < fuel ->
  z_err z = None ->
  copyBuffer fuel z w = (err, z', w') ->
  copy_effect w w' /\
  close_result (w_r w') = close_result (w_r w) /\
  z_closed z' = z_closed z /\
  (pipe_ok (w_pipe w) -> err <> Some EOF) /\
  (rerr (w_pipe w') = None -> werr (w_pipe w) = None ->
   exists chunks,
     err = script_end (script (w_r w)) /\
     concat chunks = script_bytes (script (w_r w)) /\
     z_enc z' = fst (enc_feed (z_enc z) chunks) /\
     z_err z' = None /\
     delivered (w_pipe w') =
     delivered (w_pipe w) ++ snd (enc_feed (z_enc z) chunks)).
Proof.
  induction fuel as [|fuel IH]; intros z z' w w' err Hfuel Hz; [lia|].
  cbn [copyBuffer].
  destruct (r_Read copy_buf_size w) as [[buf er] w1] eqn:Eread.
  apply r_Read_spec in Eread. destruct Eread as (Hce1 & Hp1 & Hsrc).
  apply source_Read_spec in Hsrc. destruct Hsrc as [Hcr Hstream].
  (* the write of this iteration *)
  set (step := if 0 <? length buf
               then let '(nw, ew, z0, w0) := gw_Write z buf w1 in
                    match ew with
                    | Some e => (Some e, z0, w0)
                    | None => if length buf =? nw then (None, z0, w0)
                              else (Some ErrShortWrite, z0, w0)
                    end
               else (None, z, w1)).
  assert (Hstep :
    let '(ew, z2, w2) := step in
    copy_effect w1 w2 /\ w_r w2 = w_r w1 /\ z_closed z2 = z_closed z /\
    (pipe_ok (w_pipe w1) -> ew <> Some EOF) /\
    (ew = None -> z_err z2 = None) /\
    (rerr (w_pipe w2) = None -> werr (w_pipe w1) = None ->
     ew = None /\
     exists chunk, (chunk = [] \/ chunk = [buf]) /\ concat chunk = buf /\
       z_enc z2 = fst (enc_feed (z_enc z) chunk) /\
       delivered (w_pipe w2) =
       delivered (w_pipe w1) ++ snd (enc_feed (z_enc z) chunk))).
  { subst step. destruct (0 <? length buf) eqn:Hnr.
    - destruct (gw_Write z buf w1) as [[[nw ew] z0] w0] eqn:Ew.
      apply gw_Write_spec in Ew. destruct Ew as (Hce & Hr & Hcl & Hw).
      destruct (Hw Hz) as (Henc & Hzerr & Hn & Herr & Hopen).
      assert (Hfeed : enc_feed (z_enc z) [buf] =
                      (fst (enc_write (z_enc z) buf),
                       concat (snd (enc_write (z_enc z) buf)))).
      { cbn. destruct (enc_write (z_enc z) buf) as [e1 o1]. cbn.
        rewrite app_nil_r. reflexivity. }
      destruct ew as [e|].
      + splits; auto; try discriminate.
        * intros Hok. destruct (Herr Hok) as [H|H]; inversion H. discriminate.
        * intros H1 H2. destruct (Hopen H1 H2) as [? _]. discriminate.
      + rewrite (Hn eq_refl), Nat.eqb_refl. splits; auto; try discriminate.
        intros H1 H2. destruct (Hopen H1 H2) as [_ Hd].
        split; [reflexivity|]. exists [buf]. rewrite Hfeed. cbn [fst snd].
        splits; auto. cbn. apply app_nil_r.
    - apply Nat.ltb_ge in Hnr. assert (buf = []) by (destruct buf; cbn in *; [auto|lia]).
      subst buf. splits; auto using copy_effect_refl; try discriminate.
      intros _ _. split; [reflexivity|]. exists []. cbn.
      rewrite app_nil_r. auto. }
  fold step. destruct step as [[ew z2] w2].
  destruct Hstep as (Hce2 & Hr2 & Hcl2 & Hne2 & Hz2 & Hopen2).
  assert (Hce12 : copy_effect w w2) by (eapply copy_effect_trans; eauto).
  destruct ew as [e|].
  - (* the write failed *)
    intros H; inversion H; subst; clear H. splits; auto.
    + congruence.
    + intros Hok. apply Hne2, Hce1, Hok.
    + intros H1 H2. rewrite <- (ce_werr _ _ Hce1) in H2.
      destruct (Hopen2 H1 H2) as [? _]. discriminate.
  - destruct er as [e|].
    + (* the source ended, or failed *)
      intros H; inversion H; subst; clear H. splits; auto.
      * congruence.
      * intros _. destruct e; discriminate.
      * intros H1 H2. rewrite <- (ce_werr _ _ Hce1) in H2.
        destruct (Hopen2 H1 H2) as [_ (chunk & _ & Hcat & Henc & Hd)].
        destruct Hstream as [Hb He].
        exists chunk. rewrite Hp1 in Hd. splits; auto; congruence.
    + (* next iteration *)
      destruct Hstream as (Hb & He & Hf).
      intros H. apply IH in H; auto.
      2:{ rewrite Hr2. assert (0 < copy_buf_size) by (apply Nat.ltb_lt; reflexivity).
          specialize (Hf H0). lia. }
      destruct H as (Hce3 & Hcr3 & Hcl3 & Hne3 & Hopen3).
      splits.
      * eapply copy_effect_trans; eauto.
      * congruence.
      * congruence.
      * intros Hok. apply Hne3, Hce12, Hok.
      * intros H1 H2.
        assert (Hw2 : werr (w_pipe w2) = None)
          by (rewrite (ce_werr _ _ Hce12); exact H2).
        destruct (Hopen3 H1 Hw2) as (chunks & Herr & Hcat & Henc & Hzerr & Hd).
        rewrite <- (ce_werr _ _ Hce1) in H2.
        destruct (Hopen2 (ce_rerr _ _ Hce3 H1) H2)
          as [_ (chunk & Hshape & Hcat2 & Henc2 & Hd2)].
        exists (chunk ++ chunks).
        rewrite Hr2 in Herr, Hcat. rewrite Hp1 in Hd2.
        assert (Hfeed : enc_feed (z_enc z) (chunk ++ chunks) =
                        (fst (enc_feed (z_enc z2) chunks),
                         snd (enc_feed (z_enc z) chunk) ++
                         snd (enc_feed (z_enc z2) chunks))).
        { rewrite Henc2. destruct Hshape as [-> | ->]; cbn.
          - destruct (enc_feed (z_enc z) chunks); reflexivity.
          - destruct (enc_write (z_enc z) buf) as [e1 o1]. cbn.
            destruct (enc_feed e1 chunks) as [e2 o2]. cbn.
            rewrite app_nil_r. reflexivity. }
        rewrite Hfeed. cbn [fst snd].
        splits; auto.
        -- congruence.
        -- rewrite concat_app, Hcat, Hcat2, Hb. reflexivity.
        -- rewrite Hd, Hd2, app_assoc. reflexivity.
Qed.

(** The bound on the iterations is never reached: any two bounds above
    [script_fuel] give the same run. *)
Lemma copyBuffer_fuel (fuel : nat) :
  forall (fuel' : nat) (z : gzip_Writer) (w : world),
  script_fuel (script (w_r w)) < fuel ->
  script_fuel (script (w_r w)) < fuel' ->
  copyBuffer fuel z w = copyBuffer fuel' z w.
Proof.
  induction fuel as [|fuel IH]; intros fuel' z w H1 H2; [lia|].
  destruct fuel' as [|fuel']; [lia|]. cbn [copyBuffer].
  destruct (r_Read copy_buf_size w) as [[buf er] w1] eqn:Eread.
  apply r_Read_spec in Eread. destruct Eread as (_ & _ & Hsrc).
  apply source_Read_spec in Hsrc. destruct Hsrc as [_ Hstream].
  assert (Hpos : 0 < copy_buf_size) by (apply Nat.ltb_lt; reflexivity).
  destruct (0 <? length buf).
  - destruct (gw_Write z buf w1) as [[[nw ew] z0] w0] eqn:Ew.
    apply gw_Write_spec in Ew. destruct Ew as (_ & Hr & _).
    destruct ew; [reflexivity|].
    destruct (length buf =? nw); [|reflexivity].
    destruct er; [reflexivity|].
    destruct Hstream as (_ & _ & Hf). specialize (Hf Hpos).
    apply IH; rewrite Hr; lia.
  - destruct er; [reflexivity|].
    destruct Hstream as (_ & _ & Hf). specialize (Hf Hpos).
    apply IH; lia.
Qed.

(** [io.Copy] satisfies the equation of the loop it stands for: one [Read],
    one [Write] of what was read, and either a return or the loop again. *)
Lemma io_Copy_unfold (z : gzip_Writer) (w : world) :
  io_Copy z w =
  let '(buf, er, w1) := r_Read copy_buf_size w in
  let nr := length buf in
  let '(ew, z2, w2) :=
    if 0 <? nr then
      let '(nw, ew, z', w') := gw_Write z buf w1 in
      match ew with
      | Some e => (Some e, z', w')
      | None => if nr =? nw then (None, z', w')
                else (Some ErrShortWrite, z', w')
      end
    else (None, z, w1) in
  match ew with
  | Some e => (Some e, z2, w2)
  | None =>
      match er with
      | Some e => (if is_EOF er then None else Some e, z2, w2)
      | None => io_Copy z2 w2
      end
  end.
Proof.
  unfold io_Copy at 1. cbn [copyBuffer].
  destruct (r_Read copy_buf_size w) as [[buf er] w1] eqn:Eread.
  apply r_Read_spec in Eread. destruct Eread as (_ & _ & Hsrc).
  apply source_Read_spec in Hsrc. destruct Hsrc as [_ Hstream].
  assert (Hpos : 0 < copy_buf_size) by (apply Nat.ltb_lt; reflexivity).
  cbv zeta.
  destruct (0 <? length buf).
  - destruct (gw_Write z buf w1) as [[[nw ew] z0] w0] eqn:Ew.
    apply gw_Write_spec in Ew. destruct Ew as (_ & Hr & _).
    destruct ew; [reflexivity|].
    destruct (length buf =? nw); [|reflexivity].
    destruct er; [reflexivity|].
    destruct Hstream as (_ & _ & Hf). specialize (Hf Hpos).
    apply copyBuffer_fuel; rewrite Hr; lia.
  - destruct er; [reflexivity|].
    destruct Hstream as (_ & _ & Hf). specialize (Hf Hpos).
    apply copyBuffer_fuel; lia.
Qed.

End Copy.

(** ** Logs *)



Lemma first_index_copies (f : event -> bool) (l1 l2 : list event) :
  (forall e, copies e = true -> f e = false) ->
  forallb copies l1 = true ->
  first_index f (l1 ++ l2) =
  match first_index f l2 with
  | Some i => Some (length l1 + i)
  | None => None
  end.
Proof.
  intros Hf. induction l1 as [|e l1 IH]; cbn.
  - intros _. destruct (first_index f l2); reflexivity.
  - intros H. apply andb_true_iff in H. destruct H as [He Hl].
    rewrite (Hf e He), (IH Hl). destruct (first_index f l2); reflexivity.
Qed.

Lemma copies_releases_r (e : event) : copies e = true -> releases_r e = false.
Proof. destruct e; cbn; congruence. Qed.

Lemma copies_releases_gw (e : event) : copies e = true -> releases_gw e = false.
Proof. destruct e; cbn; congruence. Qed.

Lemma copies_releases_pw (e : event) : copies e = true -> releases_pw e = false.
Proof. destruct e; cbn; congruence. Qed.

(** ** The producer, path by path *)

Section Producer.

Context {C : Compressor}.

(** The producer after a successful construction of the sink. *)
Lemma GzipReadCloserLevel_valid (r : source) (level : Z)
  (consumer : option nat) :
  valid_level level = true ->
  GzipReadCloserLevel r level consumer =
  let '(err, gw, w) := copy_phase r level consumer in
  match err with
  | Some e =>
      snd (r_Close (snd (gw_Close gw (snd (pw_CloseWithError (Some e) w)))))
  | None =>
      snd (pw_Close (snd (r_Close (snd (gw_Close gw w)))))
  end.
Proof.
  intros H. unfold GzipReadCloserLevel, producer, copy_phase.
  rewrite (gzip_NewWriterLevel_valid level H).
  destruct (io_Copy _ _) as [[err gw] w]. destruct err as [e|].
  - cbn [pw_CloseWithError snd].
    destruct (gw_Close gw _) as [[e1 gw1] w1]. reflexivity.
  - destruct (gw_Close gw w) as [[e1 gw1] w1]. reflexivity.
Qed.

(** The copy phase of the producer. *)
Lemma copy_phase_spec (r : source) (level : Z) (consumer : option nat)
  (err : option error) (z1 : gzip_Writer) (w1 : world) :
  copy_phase r level consumer = (err, z1, w1) ->
  copy_effect (mkWorld r (io_Pipe consumer) []) w1 /\
  close_result (w_r w1) = close_result r /\
  z_closed z1 = false /\
  err <> Some EOF /\
  werr (w_pipe w1) = None /\
  pipe_ok (w_pipe w1) /\
  (rerr (w_pipe w1) = None ->
   exists chunks,
     err = script_end (script r) /\
     concat chunks = script_bytes (script r) /\
     z_enc z1 = fst (enc_feed (enc_init level) chunks) /\
     z_err z1 = None /\
     delivered (w_pipe w1) = snd (enc_feed (enc_init level) chunks)) /\
  (consumer = None -> rerr (w_pipe w1) = None).
Proof.
  unfold copy_phase, io_Copy. intros H.
  apply copyBuffer_spec in H; [|cbn; lia|reflexivity].
  destruct H as (Hce & Hcr & Hcl & Hne & Hopen). cbn in Hcr, Hcl, Hne, Hopen.
  pose proof (ce_werr _ _ Hce) as Hw. cbn in Hw. rewrite werr_io_Pipe in Hw.
  splits; auto.
  - apply Hne, pipe_ok_io_Pipe.
  - apply (ce_ok _ _ Hce). cbn. apply pipe_ok_io_Pipe.
  - intros H. destruct (Hopen H (werr_io_Pipe consumer)) as (chunks & Hx).
    exists chunks. destruct Hx as (? & ? & ? & ? & Hd).
    splits; auto. rewrite Hd.
    destruct consumer as [[|k]|]; reflexivity.
  - intros ->. destruct (ce_patient _ _ Hce eq_refl) as [_ Hr]. exact Hr.
Qed.

(** The path taken when the copy fails with [e]: terminate the pipe with
    [e], then release the sink, then the source. *)
Lemma producer_on_error (r : source) (level : Z) (consumer : option nat)
  (e : error) (z1 : gzip_Writer) (w1 : world) :
  valid_level level = true ->
  copy_phase r level consumer = (Some e, z1, w1) ->
  let w := GzipReadCloserLevel r level consumer in
  (exists l2,
     w_log w = w_log w1 ++ [EvPwCloseWithError (Some e); EvGwClose] ++ l2
                 ++ [EvRClose] /\
     forallb copies l2 = true) /\
  w_pipe w = closeWrite (Some e) (w_pipe w1).
Proof.
  intros Hlevel Hcopy. cbv zeta.
  rewrite (GzipReadCloserLevel_valid r level consumer Hlevel), Hcopy.
  cbn [pw_CloseWithError snd].
  set (w2 := record _ _).
  destruct (gw_Close z1 w2) as [[e3 z3] w3] eqn:Eclose.
  apply gw_Close_spec in Eclose. destruct Eclose as (Hce & Hr & _).
  cbn [r_Close snd record w_log w_pipe].
  destruct (ce_log _ _ Hce) as (l2 & Hlog & Hq).
  split.
  - exists l2. split; [|exact Hq]. rewrite Hlog. subst w2. cbn.
    rewrite <- !app_assoc. reflexivity.
  - rewrite (ce_done _ _ Hce); [reflexivity|].
    subst w2. cbn. unfold pipe_done, closeWrite; cbn.
    destruct (rerr (w_pipe w1)); [reflexivity|].
    destruct (werr (w_pipe w1)); reflexivity.
Qed.

(** The path taken when the copy succeeds: release the sink (flushing it into
    the pipe), then the source, then close the write end. *)
Lemma producer_on_success (r : source) (level : Z) (consumer : option nat)
  (z1 : gzip_Writer) (w1 : world) :
  valid_level level = true ->
  copy_phase r level consumer = (None, z1, w1) ->
  let w := GzipReadCloserLevel r level consumer in
  (exists l2,
     w_log w = w_log w1 ++ [EvGwClose] ++ l2 ++ [EvRClose; EvPwClose] /\
     forallb copies l2 = true) /\
  exists p2,
    w_pipe w = closeWrite None p2 /\
    werr p2 = None /\
    (rerr p2 = None -> rerr (w_pipe w1) = None) /\
    (patience (w_pipe w1) = None -> rerr p2 = rerr (w_pipe w1)) /\
    (rerr p2 = None -> z_err z1 = None ->
     delivered p2 = delivered (w_pipe w1) ++ concat (enc_close (z_enc z1))).
Proof.
  intros Hlevel Hcopy. cbv zeta.
  rewrite (GzipReadCloserLevel_valid r level consumer Hlevel), Hcopy.
  destruct (copy_phase_spec r level consumer None z1 w1 Hcopy)
    as (_ & _ & Hcl & _ & Hw1 & _).
  destruct (gw_Close z1 w1) as [[e3 z3] w3] eqn:Eclose.
  apply gw_Close_spec in Eclose. destruct Eclose as (Hce & Hr & Hopen).
  cbn [r_Close pw_Close snd record w_log w_pipe].
  destruct (ce_log _ _ Hce) as (l2 & Hlog & Hq).
  split.
  - exists l2. split; [|exact Hq]. rewrite Hlog. cbn.
    rewrite <- !app_assoc. reflexivity.
  - exists (w_pipe w3). splits.
    + reflexivity.
    + rewrite (ce_werr _ _ Hce). exact Hw1.
    + apply (ce_rerr _ _ Hce).
    + intros H. apply (ce_patient _ _ Hce H).
    + intros H Hz. apply (Hopen Hz Hcl H Hw1).
Qed.

End Producer.

(** ** The bridge on concrete sources *)

Example run_success :
  GzipReadCloserLevel (C := stored_compressor)
    (mkSource [([Byte.x61; Byte.x62], None); ([Byte.x63], None)] None) 1 None
  = mkWorld (mkSource [] None)
      (mkPipe None (Some EOF)
         [Byte.x1f; Byte.x8b; Byte.x61; Byte.x62; Byte.x63; Byte.xff] None)
      [EvRead 2 None; EvGwWrite 2; EvPwWrite 2 None; EvPwWrite 2 None;
       EvRead 1 None; EvGwWrite 1; EvPwWrite 1 None;
       EvRead 0 (Some EOF);
       EvGwClose; EvPwWrite 1 None; EvRClose; EvPwClose].
Proof. vm_compute. reflexivity. Qed.

Example run_copy_error :
  w_log (GzipReadCloserLevel (C := stored_compressor) failing_source 1 None)
  = [EvRead 2 None; EvGwWrite 2; EvPwWrite 2 None; EvPwWrite 2 None;
     EvRead 1 (Some (ErrOther "disk")); EvGwWrite 1; EvPwWrite 1 None;
     EvPwCloseWithError (Some (ErrOther "disk"));
     EvGwClose; EvPwWrite 0 (Some ErrClosedPipe); EvRClose].
Proof. vm_compute. reflexivity. Qed.

(** The consumer takes three bytes and closes the read end. *)
Example run_abandoned :
  GzipReadCloserLevel (C := stored_compressor)
    (mkSource [([Byte.x61; Byte.x62], None); ([Byte.x63], None)] None) 1
    (Some 3)
  = mkWorld (mkSource [([Byte.x63], None)] None)
      (mkPipe (Some ErrClosedPipe) (Some ErrClosedPipe)
         [Byte.x1f; Byte.x8b; Byte.x61] (Some 0))
      [EvRead 2 None; EvGwWrite 2; EvPwWrite 2 None;
       EvPwWrite 1 (Some ErrClosedPipe);
       EvPwCloseWithError (Some ErrClosedPipe); EvGwClose; EvRClose].
Proof. vm_compute. reflexivity. Qed.

Example run_invalid_level :
  GzipReadCloserLevel (C := stored_compressor) failing_source 42 None
  = mkWorld failing_source
      (mkPipe None (Some (ErrInvalidLevel 42)) [] None)
      [EvPwCloseWithError (Some (ErrInvalidLevel 42))].
Proof. vm_compute. reflexivity. Qed.

(** ** The bridge, path by path *)

Section BridgePaths.

Context {C : Compressor}.

Lemma copy_result_phase (r : source) (level : Z) (consumer : option nat)
  (err : option error) :
  copy_result r level consumer = err ->
  exists z1 w1, copy_phase r level consumer = (err, z1, w1).
Proof.
  unfold copy_result. destruct (copy_phase r level consumer) as [[e z1] w1].
  cbn. intros ->. eauto.
Qed.

(** C3: when the copy completes without error, the compressing sink is
    closed before the source, and the source before the write end of the
    pipe; a consumer that reads the end of the stream has by then received
    the complete compressed stream of the source's bytes, everything the
    sink flushes on close included. *)
Theorem GzipReadCloserLevel_flush_before_close (r : source) (level : Z)
  (consumer : option nat) :
  valid_level level = true ->
  copy_result r level consumer = None ->
  let w := GzipReadCloserLevel r level consumer in
  precedes releases_gw releases_pw (w_log w) = true /\
  precedes releases_gw releases_r (w_log w) = true /\
  precedes releases_r releases_pw (w_log w) = true /\
  pr_Read (w_pipe w) <> None /\
  (pr_Read (w_pipe w) = Some (0, EOF) ->
   exists chunks,
     concat chunks = script_bytes (script r) /\
     delivered (w_pipe w) = enc_stream level chunks).
Proof.
  intros Hlevel Hcopy. cbv zeta.
  destruct (copy_result_phase r level consumer None Hcopy) as (z1 & w1 & Hphase).
  destruct (producer_on_success r level consumer z1 w1 Hlevel Hphase)
    as [(l2 & Hlog & Hq2) (p2 & Hpipe & Hw2 & Hr2 & _ & Hd2)].
  destruct (copy_phase_spec r level consumer None z1 w1 Hphase)
    as (Hce & _ & _ & _ & _ & _ & Hopen & _).
  destruct (ce_log _ _ Hce) as (l1 & Hlog1 & Hq1). cbn in Hlog1.
  rewrite Hlog1 in Hlog. rewrite Hlog, Hpipe.
  assert (Hidx : forall f, (forall e, copies e = true -> f e = false) ->
            first_index f (l1 ++ [EvGwClose] ++ l2 ++ [EvRClose; EvPwClose]) =
            match first_index f
                    (EvGwClose :: l2 ++ [EvRClose; EvPwClose]) with
            | Some i => Some (length l1 + i)
            | None => None
            end).
  { intros f Hf. apply first_index_copies; assumption. }
  unfold precedes.
  rewrite (Hidx _ copies_releases_gw), (Hidx _ copies_releases_pw),
    (Hidx _ copies_releases_r).
  cbn [first_index releases_gw releases_pw releases_r].
  rewrite (first_index_copies _ l2 _ copies_releases_pw Hq2),
    (first_index_copies _ l2 _ copies_releases_r Hq2).
  cbn [first_index releases_pw releases_r].
  splits; try (apply Nat.ltb_lt; lia).
  - unfold pr_Read, pipe_done, closeWrite; cbn. rewrite Hw2.
    destruct (rerr p2); discriminate.
  - unfold pr_Read, pipe_done, readCloseError, closeWrite; cbn. rewrite Hw2.
    destruct (rerr p2) eqn:Hr; cbn; [discriminate|]. intros _.
    destruct (Hopen (Hr2 eq_refl)) as (chunks & _ & Hcat & Henc & Hz & Hd).
    exists chunks. split; [exact Hcat|].
    rewrite (Hd2 eq_refl Hz), Hd, Henc. unfold enc_stream.
    destruct (enc_feed (enc_init level) chunks); reflexivity.
Qed.

(** C4, as amended: when the copy fails with [e], the producer first
    terminates the pipe with [e], then releases the compressing sink, then
    the input source; nothing more reaches the consumer; every later read
    of the consumer returns at once with an error that is not the end of
    stream, and with [e] itself while the consumer holds the read end
    open. *)
Theorem GzipReadCloserLevel_copy_error (r : source) (level : Z)
  (consumer : option nat) (e : error) :
  valid_level level = true ->
  copy_result r level consumer = Some e ->
  let w := GzipReadCloserLevel r level consumer in
  e <> EOF /\
  In (EvPwCloseWithError (Some e)) (w_log w) /\
  precedes releases_pw releases_gw (w_log w) = true /\
  precedes releases_gw releases_r (w_log w) = true /\
  delivered (w_pipe w) =
  delivered (w_pipe (snd (copy_phase r level consumer))) /\
  exists e',
    pr_Read (w_pipe w) = Some (0, e') /\ e' <> EOF /\
    (rerr (w_pipe w) = None -> e' = e).
Proof.
  intros Hlevel Hcopy. cbv zeta.
  destruct (copy_result_phase r level consumer (Some e) Hcopy)
    as (z1 & w1 & Hphase).
  destruct (producer_on_error r level consumer e z1 w1 Hlevel Hphase)
    as [(l2 & Hlog & Hq2) Hpipe].
  destruct (copy_phase_spec r level consumer (Some e) z1 w1 Hphase)
    as (Hce & _ & _ & Hne & Hw1 & Hok & _ & _).
  destruct (ce_log _ _ Hce) as (l1 & Hlog1 & Hq1). cbn in Hlog1.
  rewrite Hlog1 in Hlog. rewrite Hlog, Hpipe, Hphase.
  unfold precedes.
  rewrite (first_index_copies _ l1 _ copies_releases_gw Hq1),
    (first_index_copies _ l1 _ copies_releases_pw Hq1),
    (first_index_copies _ l1 _ copies_releases_r Hq1).
  cbn [app first_index releases_gw releases_pw releases_r].
  rewrite (first_index_copies _ l2 _ copies_releases_r Hq2).
  cbn [first_index releases_r].
  splits; try (apply Nat.ltb_lt; lia).
  - congruence.
  - apply in_or_app. right. left. reflexivity.
  - reflexivity.
  - unfold pr_Read, pipe_done, readCloseError, closeWrite; cbn. rewrite Hw1.
    cbn. destruct (rerr (w_pipe w1)) eqn:Hr.
    + exists ErrClosedPipe. splits; [reflexivity | discriminate | discriminate].
    + exists e. splits; [reflexivity | congruence | reflexivity].
Qed.


End BridgePaths.

Lemma GzipReadCloserLevel_flush_before_close_witness :
  precedes releases_gw releases_pw
    (w_log (GzipReadCloserLevel (C := stored_compressor)
              (mkSource [([Byte.x61; Byte.x62], None)] None) 1 None)) = true.
Proof.
  apply (GzipReadCloserLevel_flush_before_close (C := stored_compressor)
           (mkSource [([Byte.x61; Byte.x62], None)] None) 1 None);
    vm_compute; reflexivity.
Defined.

Lemma GzipReadCloserLevel_copy_error_witness :
  precedes releases_pw releases_gw
    (w_log (GzipReadCloserLevel (C := stored_compressor) failing_source 1
              None)) = true.
Proof.
  apply (GzipReadCloserLevel_copy_error (C := stored_compressor)
           failing_source 1 None (ErrOther "disk"));
    vm_compute; reflexivity.
Defined.

(** C4 as stated fails: on a copy error the source and the sink are released
    after the pipe has been terminated, not before. *)
Lemma GzipReadCloserLevel_copy_error_counterexample :
  ~ (forall (r : source) (level : Z) (consumer : option nat) (e : error),
       valid_level level = true ->
       copy_result (C := stored_compressor) r level consumer = Some e ->
       let w := GzipReadCloserLevel (C := stored_compressor) r level consumer in
       precedes releases_r releases_pw (w_log w) = true /\
       precedes releases_gw releases_pw (w_log w) = true /\
       pr_Read (w_pipe w) = Some (0, e)).
Proof.
  intros H.
  specialize (H failing_source 1%Z None (ErrOther "disk") eq_refl).
  assert (Hc : copy_result (C := stored_compressor) failing_source 1 None
               = Some (ErrOther "disk")) by (vm_compute; reflexivity).
  destruct (H Hc) as [Hr _]. vm_compute in Hr. discriminate Hr.
Qed.

(** ** Compressing and decompressing again *)

(** Reading the unzipping wrapper to completion hands out everything its
    reader holds, and ends with the reader's final error. *)
Lemma readAll_gr_Read (rac : readAndCloser) (fuel : nat) :
  Reader rac = gr_Read ->
  forall (acc : list byte) (w : gworld),
  length (pending (g_gr w)) < fuel ->
  fst (readAll fuel rac acc w) =
  (acc ++ pending (g_gr w),
   if is_EOF (Some (final (g_gr w))) then None else Some (final (g_gr w))).
Proof.
  intros Hrac. induction fuel as [|fuel IH]; intros acc w Hfuel; [lia|].
  cbn [readAll]. unfold rac_Read. rewrite Hrac. unfold gr_Read.
  destruct (pending (g_gr w)) as [|b bs] eqn:Hp.
  - cbn. rewrite app_nil_r. reflexivity.
  - rewrite IH; cbn [g_gr pending final].
    + rewrite <- app_assoc, firstn_skipn. reflexivity.
    + rewrite length_skipn. cbn [length] in *. lia.
Qed.

Section RoundTrip.

Context {C : Compressor} {D : Decompressor}.

(** What makes the two collaborators a codec: the decompressor accepts every
    complete stream of the compressor, at every level the compressor accepts
    and however the data was cut into writes, and gives the data back. *)
Hypothesis gunzip_gzip :
  forall (level : Z) (chunks : list (list byte)),
    valid_level level = true ->
    gzip_open (enc_stream level chunks) None
    = inl (concat chunks, EOF, Some EOF).

(** C6: for every byte sequence [B] and every valid level, the unzipping
    wrapper over the bridge over a source that delivers [B] is built without
    error and, read to completion, yields exactly [B] and no error. *)
Theorem gunzip_gzip_roundtrip (r : source) (level : Z) (B : list byte) :
  valid_level level = true ->
  script_bytes (script r) = B ->
  script_end (script r) = None ->
  exists rac g,
    GunzipReadCloser (pr_source (w_pipe (GzipReadCloserLevel r level None)))
    = inl (rac, g) /\
    fst (ioutil_ReadAll rac g) = (B, None).
Proof.
  intros Hlevel HB Hend.
  destruct (copy_phase r level None) as [[err z1] w1] eqn:Hphase.
  destruct (copy_phase_spec r level None err z1 w1 Hphase)
    as (Hce & _ & _ & _ & Hw1 & _ & Hopen & Hpatient).
  specialize (Hpatient eq_refl).
  destruct (Hopen Hpatient) as (chunks & Herr & Hcat & Henc & Hz & Hd).
  rewrite Hend in Herr. subst err.
  destruct (producer_on_success r level None z1 w1 Hlevel Hphase)
    as [_ (p2 & Hpipe & Hw2 & _ & Hr2 & Hd2)].
  destruct (ce_patient _ _ Hce eq_refl) as [Hpat1 _].
  specialize (Hr2 Hpat1). rewrite Hpatient in Hr2.
  specialize (Hd2 Hr2 Hz).
  assert (Hstream : delivered p2 = enc_stream level chunks).
  { rewrite Hd2, Hd, Henc. unfold enc_stream.
    destruct (enc_feed (enc_init level) chunks); reflexivity. }
  assert (Hsrc : pr_source (w_pipe (GzipReadCloserLevel r level None))
                 = mkSource [(enc_stream level chunks, None)] None).
  { rewrite Hpipe. unfold pr_source, readCloseError, closeWrite; cbn.
    rewrite Hr2, Hw2, Hstream. reflexivity. }
  rewrite Hsrc. unfold GunzipReadCloser, gzip_NewReader.
  cbn [script script_bytes script_end]. rewrite app_nil_r.
  rewrite (gunzip_gzip level chunks Hlevel).
  eexists; eexists; split; [reflexivity|].
  unfold ioutil_ReadAll. rewrite readAll_gr_Read; cbn; auto.
  congruence.
Qed.

End RoundTrip.

(** The stand-in codec is a codec. *)
Lemma stored_feed (cs : list (list byte)) :
  enc_feed (C := stored_compressor) true cs = (true, concat cs).
Proof.
  induction cs as [|c cs IH]; [reflexivity|].
  cbn [enc_feed]. cbn [enc_write stored_compressor]. rewrite IH. cbn.
  rewrite app_nil_r. reflexivity.
Qed.

Lemma stored_stream (level : Z) (chunks : list (list byte)) :
  enc_stream (C := stored_compressor) level chunks
  = gzipMagicHeader ++ concat chunks ++ [end_mark].
Proof.
  unfold enc_stream. destruct chunks as [|c cs].
  - reflexivity.
  - cbn [enc_feed]. cbn [enc_init enc_write stored_compressor].
    rewrite stored_feed. cbn. rewrite app_nil_r, <- !app_assoc. reflexivity.
Qed.

Lemma stored_gunzip_gzip (level : Z) (chunks : list (list byte)) :
  valid_level level = true ->
  gzip_open (Decompressor := stored_decompressor)
    (enc_stream (C := stored_compressor) level chunks) None
  = inl (concat chunks, EOF, Some EOF).
Proof.
  intros _. rewrite stored_stream. cbn [gzip_open stored_decompressor].
  unfold stored_open. cbn [gzipMagicHeader app].
  replace (bytes_Equal [Byte.x1f; Byte.x8b] [Byte.x1f; Byte.x8b]) with true
    by reflexivity.
  rewrite last_last, removelast_last. reflexivity.
Qed.

Lemma gunzip_gzip_roundtrip_witness :
  exists rac g,
    GunzipReadCloser (D := stored_decompressor)
      (pr_source
         (w_pipe (GzipReadCloserLevel (C := stored_compressor)
                    (mkSource [([Byte.x61; Byte.x62], None);
                               ([Byte.x63], None)] None) 6 None)))
    = inl (rac, g) /\
    fst (ioutil_ReadAll rac g) = ([Byte.x61; Byte.x62; Byte.x63], None).
Proof.
  apply (gunzip_gzip_roundtrip (C := stored_compressor)
           (D := stored_decompressor) stored_gunzip_gzip
           (mkSource [([Byte.x61; Byte.x62], None); ([Byte.x63], None)] None)
           6 [Byte.x61; Byte.x62; Byte.x63]);
    reflexivity.
Defined.

(** * Further properties *)

(** ** The bridge: resources *)


Section BridgeResources.

Context {C : Compressor}.





End BridgeResources.

(** ** The bridge: what the consumer sees *)

Section BridgeStream.

Context {C : Compressor}.

(** A clean end of stream is never seen on partial output: whatever the
    level, the source and the consumer, when the read on the returned reader
    gives [io.EOF] the level was accepted, the source ended without an
    error, the copy succeeded, and the consumer has received the complete
    compressed stream of the bytes of the source. *)
Theorem GzipReadCloserLevel_EOF_complete (r : source) (level : Z)
  (consumer : option nat) :
  let w := GzipReadCloserLevel r level consumer in
  pr_Read (w_pipe w) = Some (0, EOF) ->
  valid_level level = true /\
  script_end (script r) = None /\
  copy_result r level consumer = None /\
  exists chunks,
    concat chunks = script_bytes (script r) /\
    delivered (w_pipe w) = enc_stream level chunks.
Proof.
  cbv zeta. destruct (valid_level level) eqn:Hlevel.
  - unfold copy_result.
    destruct (copy_phase r level consumer) as [[err z1] w1] eqn:Hphase.
    destruct (copy_phase_spec r level consumer err z1 w1 Hphase)
      as (_ & _ & _ & Hne & Hw1 & _ & Hopen & _).
    destruct err as [e|].
    + destruct (producer_on_error r level consumer e z1 w1 Hlevel Hphase)
        as [_ ->].
      unfold pr_Read, pipe_done, readCloseError, closeWrite; cbn.
      rewrite Hw1; cbn. destruct (rerr (w_pipe w1)); intros H; inversion H.
      congruence.
    + destruct (producer_on_success r level consumer z1 w1 Hlevel Hphase)
        as [_ (p2 & -> & Hw2 & Hr2 & _ & Hd2)].
      unfold pr_Read, pipe_done, readCloseError, closeWrite; cbn.
      rewrite Hw2; cbn. destruct (rerr p2) eqn:Hr; [discriminate|].
      intros _.
      destruct (Hopen (Hr2 eq_refl)) as (chunks & Herr & Hcat & Henc & Hz & Hd).
      splits; auto. exists chunks. split; [exact Hcat|].
      rewrite (Hd2 eq_refl Hz), Hd, Henc. unfold enc_stream.
      destruct (enc_feed (enc_init level) chunks); reflexivity.
  - rewrite (GzipReadCloserLevel_invalid r level consumer Hlevel).
    cbn [w_pipe]. unfold pr_Read, pipe_done, readCloseError, closeWrite; cbn.
    rewrite werr_io_Pipe; cbn.
    destruct (rerr (io_Pipe consumer)); discriminate.
Qed.

(** A read error of the source reaches the consumer: when the source fails
    with [e] and the consumer still holds the read end, the copy fails with
    [e], the read on the returned reader gives [e], and what the consumer
    has received is what the compressor wrote for the bytes the source
    delivered before it failed, without the final flush of the sink. *)
Theorem GzipReadCloserLevel_source_error (r : source) (level : Z)
  (consumer : option nat) (e : error) :
  valid_level level = true ->
  script_end (script r) = Some e ->
  let w := GzipReadCloserLevel r level consumer in
  rerr (w_pipe w) = None ->
  copy_result r level consumer = Some e /\
  pr_Read (w_pipe w) = Some (0, e) /\
  exists chunks,
    concat chunks = script_bytes (script r) /\
    delivered (w_pipe w) = snd (enc_feed (enc_init level) chunks).
Proof.
  intros Hlevel Hend. cbv zeta. unfold copy_result.
  destruct (copy_phase r level consumer) as [[err z1] w1] eqn:Hphase.
  destruct (copy_phase_spec r level consumer err z1 w1 Hphase)
    as (_ & _ & _ & _ & Hw1 & _ & Hopen & _).
  destruct err as [e'|].
  - destruct (producer_on_error r level consumer e' z1 w1 Hlevel Hphase)
      as [_ ->].
    cbn [closeWrite rerr]. intros Hr.
    destruct (Hopen Hr) as (chunks & Herr & Hcat & _ & _ & Hd).
    rewrite Hend in Herr. inversion Herr; subst e'. cbn [fst].
    splits; auto.
    + unfold pr_Read, pipe_done, readCloseError, closeWrite; cbn.
      rewrite Hw1, Hr. reflexivity.
    + exists chunks. cbn. auto.
  - destruct (producer_on_success r level consumer z1 w1 Hlevel Hphase)
      as [_ (p2 & -> & _ & Hr2 & _)].
    cbn [closeWrite rerr]. intros Hr.
    destruct (Hopen (Hr2 Hr)) as (chunks & Herr & _).
    rewrite Hend in Herr. discriminate.
Qed.

(** A source that holds no byte makes the copy loop write nothing. *)
Lemma copyBuffer_silent (fuel : nat) :
  forall (z : gzip_Writer) (w : world),
  script_fuel (script (w_r w)) < fuel ->
  script_bytes (script (w_r w)) = [] ->
  exists w',
    copyBuffer fuel z w = (script_end (script (w_r w)), z, w') /\
    w_pipe w' = w_pipe w.
Proof.
  induction fuel as [|fuel IH]; intros z w Hfuel Hb; [lia|].
  cbn [copyBuffer].
  destruct (r_Read copy_buf_size w) as [[buf er] w1] eqn:Eread.
  apply r_Read_spec in Eread. destruct Eread as (_ & Hp1 & Hsrc).
  apply source_Read_spec in Hsrc. destruct Hsrc as [_ Hstream].
  assert (Hbuf : buf = []).
  { destruct er; [destruct Hstream as [H _] | destruct Hstream as [H _]];
      rewrite Hb in H; [congruence|].
    symmetry in H. apply app_eq_nil in H. tauto. }
  subst buf. cbn [length Nat.ltb Nat.leb].
  destruct er as [e|].
  - destruct Hstream as [_ He]. exists w1. rewrite He. auto.
  - destruct Hstream as (Hb1 & He & Hf).
    assert (Hpos : 0 < copy_buf_size) by (apply Nat.ltb_lt; reflexivity).
    specialize (Hf Hpos). cbn [app] in Hb1.
    destruct (IH z w1) as (w' & Hrun & Hp); [lia | congruence |].
    exists w'. rewrite Hrun, He. split; [reflexivity | congruence].
Qed.

(** Over a source that holds no byte and ends cleanly, a consumer that
    reads to the end receives exactly what the compressor writes when it is
    closed without having been written to, and then the end of the
    stream. *)
Theorem GzipReadCloserLevel_empty_source (r : source) (level : Z) :
  valid_level level = true ->
  script_bytes (script r) = [] ->
  script_end (script r) = None ->
  let w := GzipReadCloserLevel r level None in
  delivered (w_pipe w) = enc_stream level [] /\
  pr_Read (w_pipe w) = Some (0, EOF).
Proof.
  intros Hlevel Hb Hend. cbv zeta.
  destruct (copyBuffer_silent (S (script_fuel (script r)))
              (mkWriter (enc_init level) None false)
              (mkWorld r (io_Pipe None) []))
    as (w1 & Hrun & Hp1); [cbn; lia | exact Hb |].
  cbn [w_r] in Hrun. rewrite Hend in Hrun.
  assert (Hphase : copy_phase r level None
                   = (None, mkWriter (enc_init level) None false, w1))
    by exact Hrun.
  destruct (producer_on_success r level None _ w1 Hlevel Hphase)
    as [_ (p2 & -> & Hw2 & _ & Hr2 & Hd2)].
  rewrite Hp1 in Hr2, Hd2. cbn in Hr2, Hd2.
  specialize (Hr2 eq_refl). specialize (Hd2 Hr2 eq_refl).
  split.
  - cbn [closeWrite delivered]. rewrite Hd2. reflexivity.
  - unfold pr_Read, pipe_done, readCloseError, closeWrite; cbn.
    rewrite Hr2, Hw2. reflexivity.
Qed.

End BridgeStream.

Lemma GzipReadCloserLevel_EOF_complete_witness :
  pr_Read
    (w_pipe (GzipReadCloserLevel (C := stored_compressor)
               (mkSource [([Byte.x61; Byte.x62], None)] None) 1 None))
  = Some (0, EOF) /\
  copy_result (C := stored_compressor)
    (mkSource [([Byte.x61; Byte.x62], None)] None) 1 None = None.
Proof.
  assert (Hread : pr_Read
            (w_pipe (GzipReadCloserLevel (C := stored_compressor)
                       (mkSource [([Byte.x61; Byte.x62], None)] None) 1 None))
          = Some (0, EOF)) by (vm_compute; reflexivity).
  split; [exact Hread|].
  apply (GzipReadCloserLevel_EOF_complete (C := stored_compressor)
           (mkSource [([Byte.x61; Byte.x62], None)] None) 1 None Hread).
Defined.

Lemma GzipReadCloserLevel_source_error_witness :
  pr_Read (w_pipe (GzipReadCloserLevel (C := stored_compressor)
                     failing_source 1 None))
  = Some (0, ErrOther "disk").
Proof.
  apply (GzipReadCloserLevel_source_error (C := stored_compressor)
           failing_source 1 None (ErrOther "disk"));
    vm_compute; reflexivity.
Defined.

Lemma GzipReadCloserLevel_empty_source_witness :
  delivered (w_pipe (GzipReadCloserLevel (C := stored_compressor)
                       (mkSource [] None) 1 None))
  = [Byte.x1f; Byte.x8b; Byte.xff].
Proof.
  apply (GzipReadCloserLevel_empty_source (C := stored_compressor)
           (mkSource [] None) 1); reflexivity.
Defined.

(** ** The bridge: the result of closing the source *)

Lemma pw_Write_retag (cr : option error) (b : list byte) (w : world) :
  pw_Write b (retag cr w) =
  let '(n, err, w') := pw_Write b w in (n, err, retag cr w').
Proof.
  unfold pw_Write, retag; cbn.
  destruct (pipe_write (w_pipe w) b) as [[n err] p']. reflexivity.
Qed.

Lemma write_chunks_retag (cr : option error) (outs : list (list byte)) :
  forall w : world,
  write_chunks outs (retag cr w) =
  let '(err, w') := write_chunks outs w in (err, retag cr w').
Proof.
  induction outs as [|c cs IH]; intros w; cbn [write_chunks]; [reflexivity|].
  rewrite pw_Write_retag.
  destruct (pw_Write c w) as [[n err] w1].
  destruct err; [reflexivity | apply IH].
Qed.

Lemma r_Read_retag (cr : option error) (n : nat) (w : world) :
  r_Read n (retag cr w) =
  let '(bs, err, w') := r_Read n w in (bs, err, retag cr w').
Proof.
  destruct w as [[s cr0] p l]. unfold r_Read, retag, source_Read; cbn.
  destruct s as [|[chunk e] rest]; [reflexivity|].
  destruct (length chunk <=? n); reflexivity.
Qed.

Section CloseResult.

Context {C : Compressor}.

Lemma gw_Write_retag (cr : option error) (z : gzip_Writer) (p : list byte)
  (w : world) :
  gw_Write z p (retag cr w) =
  let '(n, err, z', w') := gw_Write z p w in (n, err, z', retag cr w').
Proof.
  unfold gw_Write. destruct (z_err z); [reflexivity|].
  destruct (enc_write (z_enc z) p) as [e' outs].
  change (record (EvGwWrite (length p)) (retag cr w))
    with (retag cr (record (EvGwWrite (length p)) w)).
  rewrite write_chunks_retag.
  destruct (write_chunks outs _) as [err w1]. destruct err; reflexivity.
Qed.

Lemma gw_Close_retag (cr : option error) (z : gzip_Writer) (w : world) :
  gw_Close z (retag cr w) =
  let '(err, z', w') := gw_Close z w in (err, z', retag cr w').
Proof.
  unfold gw_Close. destruct (z_err z); [reflexivity|].
  destruct (z_closed z); [reflexivity|].
  change (record EvGwClose (retag cr w)) with (retag cr (record EvGwClose w)).
  rewrite write_chunks_retag.
  destruct (write_chunks _ _) as [err w1]. reflexivity.
Qed.

Lemma copyBuffer_retag (cr : option error) (fuel : nat) :
  forall (z : gzip_Writer) (w : world),
  copyBuffer fuel z (retag cr w) =
  let '(err, z', w') := copyBuffer fuel z w in (err, z', retag cr w').
Proof.
  induction fuel as [|fuel IH]; intros z w; [reflexivity|].
  cbn [copyBuffer]. rewrite r_Read_retag.
  destruct (r_Read copy_buf_size w) as [[buf er] w1].
  destruct (0 <? length buf).
  - rewrite gw_Write_retag.
    destruct (gw_Write z buf w1) as [[[nw ew] z0] w0].
    destruct ew; [reflexivity|].
    destruct (length buf =? nw); [|reflexivity].
    destruct er; [reflexivity | apply IH].
  - destruct er; [reflexivity | apply IH].
Qed.

Lemma producer_retag (cr : option error) (level : Z) (w : world) :
  snd (producer level (retag cr w)) = retag cr (snd (producer level w)).
Proof.
  unfold producer. destruct (gzip_NewWriterLevel level) as [gw|err];
    [|reflexivity].
  unfold io_Copy. change (script (w_r (retag cr w))) with (script (w_r w)).
  rewrite copyBuffer_retag.
  destruct (copyBuffer _ gw w) as [[err gw1] w1].
  destruct err as [e|].
  - cbn [pw_CloseWithError].
    change (record (EvPwCloseWithError (Some e))
              (mkWorld (w_r (retag cr w1))
                 (closeWrite (Some e) (w_pipe (retag cr w1)))
                 (w_log (retag cr w1))))
      with (retag cr (record (EvPwCloseWithError (Some e))
                        (mkWorld (w_r w1) (closeWrite (Some e) (w_pipe w1))
                           (w_log w1)))).
    rewrite gw_Close_retag.
    destruct (gw_Close gw1 _) as [[e2 gw2] w2]. reflexivity.
  - rewrite gw_Close_retag.
    destruct (gw_Close gw1 w1) as [[e2 gw2] w2]. reflexivity.
Qed.

(** What closing the input source returns is dropped: two sources that
    differ only in the result of their [Close] leave the same pipe — so the
    same bytes and the same closing error for the consumer — and the same
    log. *)
Theorem GzipReadCloserLevel_close_result_dropped
  (s : list (list byte * option error)) (cr cr' : option error)
  (level : Z) (consumer : option nat) :
  let w := GzipReadCloserLevel (mkSource s cr) level consumer in
  let w' := GzipReadCloserLevel (mkSource s cr') level consumer in
  w_pipe w = w_pipe w' /\
  w_log w = w_log w' /\
  script (w_r w) = script (w_r w').
Proof.
  cbv zeta. unfold GzipReadCloserLevel.
  change (mkWorld (mkSource s cr) (io_Pipe consumer) [])
    with (retag cr (mkWorld (mkSource s cr') (io_Pipe consumer) [])).
  rewrite producer_retag. splits; reflexivity.
Qed.

End CloseResult.

(** ** The sniffer: errors and consumed bytes *)

Lemma IsGzipped_source (r : source) :
  snd (IsGzipped r) = snd (source_Read r 2).
Proof.
  unfold IsGzipped. destruct (source_Read r 2) as [[bs err] r']; cbn.
  destruct ((length bs =? 0) && is_EOF err); [reflexivity|].
  destruct err; reflexivity.
Qed.

Lemma source_Read_length (r : source) (n : nat) :
  length (fst (fst (source_Read r n))) <= n.
Proof.
  unfold source_Read. destruct (script r) as [|[chunk e] rest]; cbn; [lia|].
  destruct (length chunk <=? n) eqn:H; cbn [fst].
  - apply Nat.leb_le, H.
  - rewrite length_firstn. lia.
Qed.

Lemma sniff_true_first_read (r : source) :
  fst (sniff r) = true -> first_read r = (gzipMagicHeader, None).
Proof.
  rewrite sniff_first_read. destruct (first_read r) as [bs err].
  destruct ((length bs =? 0) && is_EOF err); [discriminate|].
  destruct err as [e|]; cbn [fst]; [discriminate|].
  rewrite bytes_Equal_eq, fill_magic. intros ->. reflexivity.
Qed.

(** The sniffer does not put back what it reads: when its [Read] returns
    without an error, at most two bytes are gone from the source, and the
    source it leaves holds the rest of the stream, ends the same way and
    closes the same way. *)
Theorem IsGzipped_consumes (r : source) :
  snd (first_read r) = None ->
  let r' := snd (IsGzipped r) in
  length (fst (first_read r)) <= 2 /\
  script_bytes (script r) = fst (first_read r) ++ script_bytes (script r') /\
  script_end (script r') = script_end (script r) /\
  close_result r' = close_result r.
Proof.
  cbv zeta. rewrite IsGzipped_source. unfold first_read.
  pose proof (source_Read_length r 2) as Hlen.
  destruct (source_Read r 2) as [[bs err] r'] eqn:E. cbn [fst snd] in *.
  intros ->. apply source_Read_spec in E. destruct E as (Hcr & Hb & He & _).
  splits; auto.
Qed.

Lemma IsGzipped_consumes_witness :
  script_bytes
    (script (snd (IsGzipped
                    (mkSource [([Byte.x50; Byte.x4b; Byte.x03], None)] None))))
  = [Byte.x03].
Proof.
  pose proof (IsGzipped_consumes
                (mkSource [([Byte.x50; Byte.x4b; Byte.x03], None)] None)
                eq_refl) as H.
  cbv zeta in H. destruct H as (_ & H & _).
  apply (app_inv_head [Byte.x50; Byte.x4b]). symmetry. exact H.
Defined.

(** On a match the sniffer returns no error, and the source has lost its
    magic header: the stream was 0x1F 0x8B followed by what the source still
    holds. *)
Theorem IsGzipped_match_consumes_header (r : source) :
  fst (sniff r) = true ->
  sniff r = (true, None) /\
  script_bytes (script r)
  = gzipMagicHeader ++ script_bytes (script (snd (IsGzipped r))).
Proof.
  intros H. apply sniff_true_first_read in H. split.
  - rewrite sniff_first_read, H. reflexivity.
  - rewrite IsGzipped_source. unfold first_read in H.
    destruct (source_Read r 2) as [[bs err] r'] eqn:E. cbn [fst snd] in *.
    inversion H; subst. apply source_Read_spec in E.
    destruct E as (_ & Hb & _). exact Hb.
Qed.

Lemma IsGzipped_match_consumes_header_witness :
  script_bytes
    (script (snd (IsGzipped
                    (mkSource [([Byte.x1f; Byte.x8b; Byte.x08], None)] None))))
  = [Byte.x08].
Proof.
  destruct (IsGzipped_match_consumes_header
              (mkSource [([Byte.x1f; Byte.x8b; Byte.x08], None)] None)
              eq_refl) as [_ H].
  apply (app_inv_head gzipMagicHeader). symmetry. exact H.
Defined.

(** The sniffer returns an error [e] exactly when its [Read] returns [e]
    and this is not the end of stream of an empty read; it then reports no
    match.  In particular [io.EOF] is returned as an error when it comes
    with one or two bytes. *)
Theorem IsGzipped_error_iff (r : source) (e : error) :
  snd (sniff r) = Some e <->
  snd (first_read r) = Some e /\ (fst (first_read r) <> [] \/ e <> EOF).
Proof.
  rewrite sniff_first_read. destruct (first_read r) as [bs err]. cbn [fst snd].
  destruct bs as [|b bs]; cbn [length Nat.eqb andb].
  - destruct err as [e0|]; cbn [is_EOF].
    + destruct e0; cbn [snd]; split;
        try (intros H; inversion H; subst; split;
             [reflexivity | right; discriminate]);
        try (intros [H _]; exact H);
        try discriminate.
      intros [H [Hb|He]]; [congruence | inversion H; congruence].
    + cbn [snd]. split; [discriminate | intros [H _]; discriminate].
  - destruct err as [e0|]; cbn [snd].
    + split; [intros H; split; [exact H | left; discriminate]
             | intros [H _]; exact H].
    + split; [discriminate | intros [H _]; discriminate].
Qed.

Lemma IsGzipped_error_iff_witness :
  snd (sniff (mkSource [([Byte.x1f; Byte.x8b], Some EOF)] None)) = Some EOF.
Proof.
  apply (proj2 (IsGzipped_error_iff
                  (mkSource [([Byte.x1f; Byte.x8b], Some EOF)] None) EOF)).
  split; [reflexivity | left; discriminate].
Defined.

(** For a source whose first [Read] fills the two bytes of the buffer and
    returns no error, the sniffer decides exactly whether the stream starts
    with the magic header, and returns no error. *)
Theorem IsGzipped_full_read (r : source) :
  length (fst (first_read r)) = 2 ->
  snd (first_read r) = None ->
  sniff r
  = (bytes_Equal (firstn 2 (script_bytes (script r))) gzipMagicHeader, None).
Proof.
  intros Hlen Herr. rewrite sniff_first_read.
  destruct (first_read r) as [bs err] eqn:E. cbn [fst snd] in *. subst err.
  destruct (first_read_prefix r bs None E) as [tl ->].
  destruct bs as [|b1 [|b2 [|b3 bs]]]; try discriminate Hlen.
  reflexivity.
Qed.

Lemma IsGzipped_full_read_witness :
  sniff (mkSource [([Byte.x1f; Byte.x8b; Byte.x08], None)] None)
  = (true, None).
Proof.
  apply (IsGzipped_full_read
           (mkSource [([Byte.x1f; Byte.x8b; Byte.x08], None)] None));
    reflexivity.
Defined.

(** ** The unzipping wrapper: reading and releasing *)

(** Reading the wrapper to completion: the bytes, the error, and the state
    it leaves. *)
Lemma readAll_gr_Read_state (rac : readAndCloser) (fuel : nat) :
  Reader rac = gr_Read ->
  forall (acc : list byte) (w : gworld),
  length (pending (g_gr w)) < fuel ->
  readAll fuel rac acc w =
  (acc ++ pending (g_gr w),
   if is_EOF (Some (final (g_gr w))) then None else Some (final (g_gr w)),
   mkGworld (g_r w)
     (mkReader [] (final (g_gr w)) (final_ferr (g_gr w))
        (final_ferr (g_gr w)))
     (g_log w)).
Proof.
  intros Hrac. induction fuel as [|fuel IH]; intros acc w Hfuel; [lia|].
  cbn [readAll]. unfold rac_Read. rewrite Hrac. unfold gr_Read.
  destruct (pending (g_gr w)) as [|b bs] eqn:Hp.
  - cbn. rewrite app_nil_r. reflexivity.
  - rewrite IH; cbn [g_gr g_r g_log pending final final_ferr].
    + rewrite <- app_assoc, firstn_skipn. reflexivity.
    + rewrite length_skipn. cbn [length] in *. lia.
Qed.

Section GunzipLifecycle.

Context {D : Decompressor}.

(** When the decompressor leaves no error behind (it has none, or it has
    reached the end of its stream), the wrapper is built; read to
    completion it yields the payload and the final error of the reader and
    releases nothing; released afterwards, or released at once without being
    read, it releases the decompressing reader and then the wrapped source,
    once each, and returns what closing the source returns. *)
Theorem GunzipReadCloser_lifecycle (r : source) (payload : list byte)
  (fin : error) (ferr : option error) :
  gzip_open (script_bytes (script r)) (script_end (script r))
  = inl (payload, fin, ferr) ->
  ferr = None \/ ferr = Some EOF ->
  exists rac g,
    GunzipReadCloser r = inl (rac, g) /\
    g_log g = [] /\
    fst (rac_Close rac g) = close_result r /\
    g_log (snd (rac_Close rac g)) = [EvGrClose; EvRClose] /\
    let '(bs, err, g1) := ioutil_ReadAll rac g in
    bs = payload /\
    err = (if is_EOF (Some fin) then None else Some fin) /\
    g_log g1 = [] /\
    fst (rac_Close rac g1) = close_result r /\
    g_log (snd (rac_Close rac g1)) = [EvGrClose; EvRClose].
Proof.
  intros Hopen Hferr.
  assert (Hbuilt : GunzipReadCloser r
                   = inl (mkReadAndCloser gr_Read
                            (fun w =>
                               match gr_Close w with
                               | (Some err, w) => (Some err, w)
                               | (None, w) => g_r_Close w
                               end),
                          mkGworld r (mkReader payload fin ferr None) [])).
  { unfold GunzipReadCloser, gzip_NewReader. rewrite Hopen. reflexivity. }
  eexists; eexists; split; [exact Hbuilt|].
  rewrite (GunzipReadCloser_Close r _ _ _ Hbuilt). cbn [g_gr decompressor_err].
  splits; try reflexivity.
  unfold ioutil_ReadAll.
  rewrite readAll_gr_Read_state by (cbn; auto).
  cbn [g_gr g_r g_log pending final final_ferr].
  rewrite (GunzipReadCloser_Close r _ _ _ Hbuilt).
  cbn [g_gr g_r g_log decompressor_err].
  splits; try reflexivity;
    destruct Hferr as [-> | ->]; reflexivity.
Qed.

End GunzipLifecycle.

Lemma GunzipReadCloser_lifecycle_witness :
  exists rac g,
    GunzipReadCloser (D := stored_decompressor)
      (mkSource [([Byte.x1f; Byte.x8b; Byte.x61; Byte.xff], None)]
         (Some (ErrOther "close")))
    = inl (rac, g) /\
    fst (fst (ioutil_ReadAll rac g)) = [Byte.x61].
Proof.
  destruct (GunzipReadCloser_lifecycle (D := stored_decompressor)
              (mkSource [([Byte.x1f; Byte.x8b; Byte.x61; Byte.xff], None)]
                 (Some (ErrOther "close")))
              [Byte.x61] EOF (Some EOF) eq_refl (or_intror eq_refl))
    as (rac & g & Hb & _ & _ & _ & Hread).
  exists rac, g. split; [exact Hb|].
  destruct (ioutil_ReadAll rac g) as [[bs err] g1].
  destruct Hread as [-> _]. reflexivity.
Defined.

(** ** The bridge: nothing is used after the first release *)

Lemma write_chunks_log (outs : list (list byte)) :
  forall (w w' : world) (err : option error),
  write_chunks outs w = (err, w') ->
  exists l, w_log w' = w_log w ++ l /\ forallb is_pw_write l = true.
Proof.
  induction outs as [|c cs IH]; intros w w' err; cbn [write_chunks].
  - intros H; inversion H; subst. exists []. rewrite app_nil_r. auto.
  - unfold pw_Write.
    destruct (pipe_write (w_pipe w) c) as [[n e] p'].
    destruct e as [e|].
    + intros H; inversion H; subst. exists [EvPwWrite n (Some e)]. auto.
    + intros H. apply IH in H. destruct H as (l & Hl & Hq). cbn in Hl.
      exists (EvPwWrite n None :: l). rewrite Hl, <- app_assoc. auto.
Qed.

Lemma after_copies (l1 l2 : list event) :
  forallb copies l1 = true ->
  after releases (l1 ++ l2) = after releases l2.
Proof.
  induction l1 as [|e l1 IH]; cbn; [reflexivity|].
  intros H. apply andb_true_iff in H. destruct H as [He Hl].
  unfold releases.
  rewrite (copies_releases_pw e He), (copies_releases_gw e He),
    (copies_releases_r e He). cbn. auto.
Qed.

Lemma pw_writes_unused (l : list event) :
  forallb is_pw_write l = true ->
  existsb (fun e => is_read e || is_gw_write e) l = false.
Proof.
  induction l as [|e l IH]; cbn; [reflexivity|].
  intros H. apply andb_true_iff in H. destruct H as [He Hl].
  rewrite (IH Hl). destruct e; cbn in *; congruence.
Qed.

Section UseAfterRelease.

Context {C : Compressor}.

Lemma gw_Close_log (z z' : gzip_Writer) (w w' : world) (err : option error) :
  gw_Close z w = (err, z', w') ->
  exists l, w_log w' = w_log w ++ EvGwClose :: l /\
            forallb is_pw_write l = true.
Proof.
  unfold gw_Close. destruct (z_err z).
  - intros H; inversion H; subst. exists []. auto.
  - destruct (z_closed z).
    + intros H; inversion H; subst. exists []. auto.
    + destruct (write_chunks _ _) as [e1 w1] eqn:E.
      apply write_chunks_log in E. destruct E as (l & Hl & Hq).
      intros H; inversion H; subst. exists l. rewrite Hl. cbn.
      rewrite <- app_assoc. auto.
Qed.

(** Whatever the level, the source and the consumer: once the producer has
    released any of its three resources, it reads nothing more from the
    input source and writes nothing more to the compressing sink. *)
Theorem GzipReadCloserLevel_no_use_after_release (r : source) (level : Z)
  (consumer : option nat) :
  existsb (fun e => is_read e || is_gw_write e)
    (after releases (w_log (GzipReadCloserLevel r level consumer))) = false.
Proof.
  destruct (valid_level level) eqn:Hlevel.
  - rewrite (GzipReadCloserLevel_valid r level consumer Hlevel).
    destruct (copy_phase r level consumer) as [[err z1] w1] eqn:Hphase.
    destruct (copy_phase_spec r level consumer err z1 w1 Hphase) as (Hce & _).
    destruct (ce_log _ _ Hce) as (l1 & Hlog1 & Hq1). cbn in Hlog1.
    destruct err as [e|].
    + cbn [pw_CloseWithError snd].
      destruct (gw_Close z1 _) as [[e3 z3] w3] eqn:Eclose.
      apply gw_Close_log in Eclose. destruct Eclose as (l3 & Hl3 & Hq3).
      cbn [r_Close snd record w_log]. rewrite Hl3. cbn [record w_log].
      rewrite Hlog1, <- !app_assoc, (after_copies l1 _ Hq1).
      cbn [app after releases releases_pw orb existsb is_read is_gw_write].
      rewrite existsb_app, (pw_writes_unused l3 Hq3). reflexivity.
    + destruct (gw_Close z1 w1) as [[e3 z3] w3] eqn:Eclose.
      apply gw_Close_log in Eclose. destruct Eclose as (l3 & Hl3 & Hq3).
      cbn [r_Close pw_Close snd record w_log]. rewrite Hl3, Hlog1.
      rewrite <- !app_assoc, (after_copies l1 _ Hq1).
      cbn [app after releases releases_pw releases_gw orb existsb is_read
             is_gw_write].
      rewrite !existsb_app, (pw_writes_unused l3 Hq3). reflexivity.
  - rewrite (GzipReadCloserLevel_invalid r level consumer Hlevel).
    reflexivity.
Qed.

End UseAfterRelease.

(** ** The bridge: where a copy error comes from *)

(** The error of a [Read] is one of the errors of the script, or the end of
    stream; reading adds no error to the script. *)
Lemma source_Read_errors (r r' : source) (n : nat) (bs : list byte)
  (err : option error) :
  source_Read r n = (bs, err, r') ->
  (err = None \/ err = Some EOF \/ In err (map snd (script r))) /\
  (forall x, In x (map snd (script r')) -> In x (map snd (script r))).
Proof.
  unfold source_Read. destruct r as [s cr]; cbn [script close_result].
  destruct s as [|[chunk e] rest].
  - intros H; inversion H; subst. auto.
  - destruct (length chunk <=? n); intros H;
      apply pair_equal_spec in H; destruct H as [H <-];
      apply pair_equal_spec in H; destruct H as [_ <-];
      cbn [script map snd In]; auto.
Qed.

Section CopyError.

Context {C : Compressor}.

Lemma copyBuffer_error (fuel : nat) :
  forall (z z' : gzip_Writer) (w w' : world) (e : error),
  script_fuel (script (w_r w)) < fuel ->
  z_err z = None ->
  pipe_ok (w_pipe w) ->
  werr (w_pipe w) = None ->
  copyBuffer fuel z w = (Some e, z', w') ->
  (e = ErrClosedPipe /\ rerr (w_pipe w') <> None) \/
  (e <> EOF /\ In (Some e) (map snd (script (w_r w)))).
Proof.
  induction fuel as [|fuel IH]; intros z z' w w' e Hfuel Hz Hok Hw; [lia|].
  cbn [copyBuffer].
  destruct (r_Read copy_buf_size w) as [[buf er] w1] eqn:Eread.
  apply r_Read_spec in Eread. destruct Eread as (Hce1 & Hp1 & Hsrc).
  pose proof (source_Read_errors _ _ _ _ _ Hsrc) as [Herr Hmono].
  apply source_Read_spec in Hsrc. destruct Hsrc as [_ Hstream].
  assert (Hpos : 0 < copy_buf_size) by (apply Nat.ltb_lt; reflexivity).
  rewrite <- Hp1 in Hok, Hw.
  assert (Hend : forall z2 w2,
            w_r w2 = w_r w1 -> z_err z2 = None ->
            pipe_ok (w_pipe w2) -> werr (w_pipe w2) = None ->
            match er with
            | Some e0 => (if is_EOF er then None else Some e0, z2, w2)
            | None => copyBuffer fuel z2 w2
            end = (Some e, z', w') ->
            (e = ErrClosedPipe /\ rerr (w_pipe w') <> None) \/
            (e <> EOF /\ In (Some e) (map snd (script (w_r w))))).
  { intros z2 w2 Hr2 Hz2 Hok2 Hw2. destruct er as [e0|].
    - destruct e0; cbn [is_EOF]; intros H; inversion H; subst;
        right; (split; [discriminate|]);
        destruct Herr as [H0|[H0|H0]]; try discriminate; exact H0.
    - intros H. destruct Hstream as (_ & _ & Hf). specialize (Hf Hpos).
      apply IH in H; auto; [|rewrite Hr2; lia].
      destruct H as [H|[Hne Hin]]; [left; exact H|].
      right. split; [exact Hne|]. apply Hmono. rewrite <- Hr2. exact Hin. }
  destruct (0 <? length buf).
  - destruct (gw_Write z buf w1) as [[[nw ew] z0] w0] eqn:Ew.
    apply gw_Write_spec in Ew. destruct Ew as (Hce & Hr & _ & Hwr).
    destruct (Hwr Hz) as (_ & Hzerr & Hn & Herrs & Hopen).
    destruct ew as [e0|].
    + intros H; inversion H; subst. left. split.
      * destruct (Herrs Hok) as [H0|H0]; congruence.
      * intros Hr0. destruct (Hopen Hr0 Hw) as [? _]. discriminate.
    + rewrite (Hn eq_refl), Nat.eqb_refl.
      apply Hend; auto.
      * apply (ce_ok _ _ Hce), Hok.
      * rewrite (ce_werr _ _ Hce). exact Hw.
  - apply Hend; auto.
Qed.

(** The error with which the copy fails, and with which the producer
    terminates the pipe, is either [io.ErrClosedPipe], the consumer having
    closed the read end, or an error other than [io.EOF] that a [Read] of
    the input source returned. *)
Theorem GzipReadCloserLevel_copy_error_origin (r : source) (level : Z)
  (consumer : option nat) (e : error) :
  copy_result r level consumer = Some e ->
  (e = ErrClosedPipe /\
   rerr (w_pipe (snd (copy_phase r level consumer))) <> None) \/
  (e <> EOF /\ In (Some e) (map snd (script r))).
Proof.
  unfold copy_result.
  destruct (copy_phase r level consumer) as [[err z1] w1] eqn:Hphase.
  cbn [fst snd]. intros ->.
  unfold copy_phase, io_Copy in Hphase.
  apply copyBuffer_error in Hphase;
    [exact Hphase | cbn; lia | reflexivity
    | cbn; apply pipe_ok_io_Pipe | cbn; apply werr_io_Pipe].
Qed.

End CopyError.

Lemma GzipReadCloserLevel_copy_error_origin_witness :
  copy_result (C := stored_compressor) failing_source 1 (Some 3)
  = Some ErrClosedPipe /\
  rerr (w_pipe (snd (copy_phase (C := stored_compressor) failing_source 1
                       (Some 3)))) <> None.
Proof.
  assert (Hc : copy_result (C := stored_compressor) failing_source 1 (Some 3)
               = Some ErrClosedPipe) by (vm_compute; reflexivity).
  split; [exact Hc|].
  destruct (GzipReadCloserLevel_copy_error_origin (C := stored_compressor)
              failing_source 1 (Some 3) ErrClosedPipe Hc)
    as [[_ H] | [_ H]]; [exact H|].
  exfalso. cbn in H. destruct H as [H|[H|[]]]; discriminate H.
Defined.

(** ** The bridge: a consumer that gives up receives a prefix *)

Lemma grows_refl (w : world) : grows w w.
Proof. exists []. rewrite app_nil_r. reflexivity. Qed.

Lemma grows_trans (w1 w2 w3 : world) : grows w1 w2 -> grows w2 w3 -> grows w1 w3.
Proof.
  intros [x Hx] [y Hy]. exists (x ++ y). rewrite Hy, Hx, app_assoc. reflexivity.
Qed.

Lemma pw_Write_grows (b : list byte) (w : world) :
  grows w (snd (pw_Write b w)).
Proof.
  unfold grows, pw_Write, pipe_write.
  destruct (pipe_done (w_pipe w)); cbn.
  - exists []. rewrite app_nil_r. reflexivity.
  - match goal with |- context [if ?c then _ else _] => destruct c end;
      cbn; rewrite consumer_turn_delivered; cbn; eauto.
Qed.

Lemma write_chunks_grows (outs : list (list byte)) :
  forall w : world, grows w (snd (write_chunks outs w)).
Proof.
  induction outs as [|c cs IH]; intros w; cbn [write_chunks].
  - apply grows_refl.
  - pose proof (pw_Write_grows c w) as H.
    destruct (pw_Write c w) as [[n err] w1]. cbn [snd] in H.
    destruct err; [exact H|].
    eapply grows_trans; [exact H | apply IH].
Qed.

Lemma cut_stable (k : nat) (wk wn wk' wn' : world) :
  cutW k wk wn ->
  w_pipe wk' = w_pipe wk ->
  grows wn wn' ->
  cutW k wk' wn'.
Proof.
  unfold cutW, cut. intros (Hr & Hd & Hk) Hp [x Hx]. rewrite Hp, Hx.
  splits; auto.
  - rewrite firstn_app. replace (k - length (delivered (w_pipe wn))) with 0 by lia.
    cbn. rewrite app_nil_r. exact Hd.
  - rewrite length_app. lia.
Qed.

Lemma cut_done (k : nat) (wk wn : world) :
  cutW k wk wn -> pipe_done (w_pipe wk) = true.
Proof.
  intros (Hr & _). unfold pipe_done. destruct (rerr (w_pipe wk)); congruence.
Qed.

(** One write on two pipes in step. *)
Lemma pipe_write_lock (k : nat) (pk pn : pipe) (b : list byte) :
  lock k pk pn ->
  (snd (fst (pipe_write pk b)) = None /\
   fst (pipe_write pk b) = fst (pipe_write pn b) /\
   lock k (snd (pipe_write pk b)) (snd (pipe_write pn b))) \/
  cut k (snd (pipe_write pk b)) (snd (pipe_write pn b)).
Proof.
  intros (Hrk & Hwk & Hrn & Hwn & Hpn & Hd & j & Hj & Hpk & Hlen).
  unfold pipe_write, pipe_done. rewrite Hrk, Hwk, Hrn, Hwn, Hpk, Hpn.
  unfold consumer_turn at 3. cbn [patience].
  destruct (Nat.lt_ge_cases (length b) j) as [Hlt|Hge].
  - left. rewrite (firstn_all2 b) by lia.
    rewrite Nat.ltb_irrefl. cbn [fst snd].
    unfold consumer_turn; cbn [patience].
    destruct (j - length b) as [|j'] eqn:Hj'; [lia|].
    splits; auto. unfold lock; cbn.
    splits; auto; [rewrite Hd; reflexivity|].
    exists (S j'). splits; auto; [lia|]. rewrite length_app. lia.
  - right.
    assert (Hlf : length (firstn j b) = j) by (rewrite length_firstn; lia).
    rewrite Hlf, Nat.sub_diag.
    assert (Hcut : cut k
              (consumer_turn
                 (mkPipe None None (delivered pk ++ firstn j b) (Some 0)))
              (mkPipe None None (delivered pn ++ b) None)).
    { unfold cut, consumer_turn; cbn. splits; [discriminate| |].
      - rewrite <- Hlen, Hd, firstn_app_2. reflexivity.
      - rewrite length_app, <- Hd. lia. }
    rewrite Nat.ltb_irrefl.
    destruct (j <? length b); exact Hcut.
Qed.

Lemma pw_Write_lock (k : nat) (b : list byte) (wk wn : world) :
  lockW k wk wn ->
  (snd (fst (pw_Write b wk)) = None /\
   fst (pw_Write b wk) = fst (pw_Write b wn) /\
   lockW k (snd (pw_Write b wk)) (snd (pw_Write b wn))) \/
  cutW k (snd (pw_Write b wk)) (snd (pw_Write b wn)).
Proof.
  intros [Hr Hl]. unfold pw_Write, lockW, cutW.
  pose proof (pipe_write_lock k _ _ b Hl) as H.
  destruct (pipe_write (w_pipe wk) b) as [[nk ek] pk'].
  destruct (pipe_write (w_pipe wn) b) as [[nn en] pn'].
  cbn [fst snd] in *. cbn.
  destruct H as [(He & Heq & Hl') | Hc]; [left | right; exact Hc].
  splits; auto.
Qed.

Lemma write_chunks_lock (k : nat) (outs : list (list byte)) :
  forall wk wn : world,
  lockW k wk wn ->
  (fst (write_chunks outs wk) = None /\
   fst (write_chunks outs wn) = None /\
   lockW k (snd (write_chunks outs wk)) (snd (write_chunks outs wn))) \/
  cutW k (snd (write_chunks outs wk)) (snd (write_chunks outs wn)).
Proof.
  induction outs as [|c cs IH]; intros wk wn Hl; cbn [write_chunks].
  - left. auto.
  - destruct (pw_Write_lock k c wk wn Hl) as [(He & Heq & Hl') | Hc].
    + destruct (pw_Write c wk) as [[nk ek] wk1].
      destruct (pw_Write c wn) as [[nn en] wn1].
      cbn [fst snd] in *. inversion Heq; subst. apply IH, Hl'.
    + right.
      pose proof (write_chunks_grows cs (snd (pw_Write c wn))) as Hg.
      destruct (pw_Write c wk) as [[nk ek] wk1].
      destruct (pw_Write c wn) as [[nn en] wn1].
      cbn [fst snd] in *.
      assert (Hk : w_pipe (snd (match ek with
                                | Some e => (Some e, wk1)
                                | None => write_chunks cs wk1
                                end)) = w_pipe wk1).
      { destruct ek; [reflexivity|].
        destruct (write_chunks cs wk1) as [e1 w1] eqn:E.
        apply write_chunks_spec in E. destruct E as (Hce & _).
        apply (ce_done _ _ Hce), (cut_done k _ _ Hc). }
      assert (Hn : grows wn1 (snd (match en with
                                   | Some e => (Some e, wn1)
                                   | None => write_chunks cs wn1
                                   end))).
      { destruct en; [apply grows_refl | exact Hg]. }
      destruct ek, en; eapply cut_stable; eauto.
Qed.

Lemma record_lock (k : nat) (e : event) (wk wn : world) :
  lockW k wk wn -> lockW k (record e wk) (record e wn).
Proof. intros [Hr Hl]. split; assumption. Qed.

Lemma r_Read_lock (k n : nat) (wk wn : world) :
  lockW k wk wn ->
  fst (r_Read n wk) = fst (r_Read n wn) /\
  lockW k (snd (r_Read n wk)) (snd (r_Read n wn)).
Proof.
  intros [Hr Hl]. unfold r_Read. rewrite Hr.
  destruct (source_Read (w_r wn) n) as [[bs err] r']. cbn.
  split; [reflexivity | split; [reflexivity | exact Hl]].
Qed.

Section Prefix.

Context {C : Compressor}.

Lemma gw_Write_grows (z : gzip_Writer) (p : list byte) (w : world) :
  grows w (snd (gw_Write z p w)).
Proof.
  unfold gw_Write. destruct (z_err z).
  - exists []. cbn. rewrite app_nil_r. reflexivity.
  - destruct (enc_write (z_enc z) p) as [e' outs].
    pose proof (write_chunks_grows outs (record (EvGwWrite (length p)) w))
      as H.
    destruct (write_chunks outs _) as [err w1]. destruct err; exact H.
Qed.

Lemma gw_Close_grows (z : gzip_Writer) (w : world) :
  grows w (snd (gw_Close z w)).
Proof.
  unfold gw_Close. destruct (z_err z).
  - exists []. cbn. rewrite app_nil_r. reflexivity.
  - destruct (z_closed z).
    + exists []. cbn. rewrite app_nil_r. reflexivity.
    + pose proof (write_chunks_grows (enc_close (z_enc z))
                    (record EvGwClose w)) as H.
      destruct (write_chunks _ _) as [err w1]. exact H.
Qed.

Lemma gw_Write_frozen (z : gzip_Writer) (p : list byte) (w : world) :
  pipe_done (w_pipe w) = true ->
  w_pipe (snd (gw_Write z p w)) = w_pipe w.
Proof.
  destruct (gw_Write z p w) as [[[n e] z'] w'] eqn:E.
  apply gw_Write_spec in E. destruct E as (Hce & _).
  apply (ce_done _ _ Hce).
Qed.

Lemma gw_Close_frozen (z : gzip_Writer) (w : world) :
  pipe_done (w_pipe w) = true ->
  w_pipe (snd (gw_Close z w)) = w_pipe w.
Proof.
  destruct (gw_Close z w) as [[e z'] w'] eqn:E.
  apply gw_Close_spec in E. destruct E as (Hce & _).
  apply (ce_done _ _ Hce).
Qed.

Lemma copyBuffer_grows (fuel : nat) :
  forall (z : gzip_Writer) (w : world), grows w (snd (copyBuffer fuel z w)).
Proof.
  induction fuel as [|fuel IH]; intros z w; [apply grows_refl|].
  cbn [copyBuffer].
  assert (Hread : w_pipe (snd (r_Read copy_buf_size w)) = w_pipe w).
  { destruct (r_Read copy_buf_size w) as [[b e] w1] eqn:E.
    apply r_Read_spec in E. tauto. }
  destruct (r_Read copy_buf_size w) as [[buf er] w1]. cbn [snd] in Hread.
  assert (H1 : grows w w1) by (exists []; rewrite Hread, app_nil_r; reflexivity).
  destruct (0 <? length buf).
  - pose proof (gw_Write_grows z buf w1) as H2.
    destruct (gw_Write z buf w1) as [[[nw ew] z0] w0]. cbn [snd] in H2.
    assert (H12 : grows w w0) by (eapply grows_trans; eauto).
    destruct ew; [exact H12|].
    destruct (length buf =? nw); [|exact H12].
    destruct er; [exact H12|].
    eapply grows_trans; [exact H12 | apply IH].
  - destruct er; [exact H1|].
    eapply grows_trans; [exact H1 | apply IH].
Qed.

Lemma copyBuffer_frozen (fuel : nat) :
  forall (z : gzip_Writer) (w : world),
  pipe_done (w_pipe w) = true ->
  w_pipe (snd (copyBuffer fuel z w)) = w_pipe w.
Proof.
  induction fuel as [|fuel IH]; intros z w Hdone; [reflexivity|].
  cbn [copyBuffer].
  assert (Hread : w_pipe (snd (r_Read copy_buf_size w)) = w_pipe w).
  { destruct (r_Read copy_buf_size w) as [[b e] w1] eqn:E.
    apply r_Read_spec in E. tauto. }
  destruct (r_Read copy_buf_size w) as [[buf er] w1]. cbn [snd] in Hread.
  rewrite <- Hread in Hdone |- *.
  destruct (0 <? length buf).
  - pose proof (gw_Write_frozen z buf w1 Hdone) as H2.
    destruct (gw_Write z buf w1) as [[[nw ew] z0] w0]. cbn [snd] in H2.
    destruct ew; [exact H2|].
    destruct (length buf =? nw); [|exact H2].
    destruct er; [exact H2|].
    rewrite IH; [exact H2 | rewrite H2; exact Hdone].
  - destruct er; [reflexivity|]. apply IH, Hdone.
Qed.

Lemma gw_Write_lock (k : nat) (z : gzip_Writer) (p : list byte)
  (wk wn : world) :
  lockW k wk wn ->
  (fst (gw_Write z p wk) = fst (gw_Write z p wn) /\
   lockW k (snd (gw_Write z p wk)) (snd (gw_Write z p wn))) \/
  cutW k (snd (gw_Write z p wk)) (snd (gw_Write z p wn)).
Proof.
  intros Hl. unfold gw_Write. destruct (z_err z).
  - left. split; [reflexivity | apply record_lock, Hl].
  - destruct (enc_write (z_enc z) p) as [e' outs].
    pose proof (write_chunks_lock k outs _ _
                  (record_lock k (EvGwWrite (length p)) _ _ Hl)) as H.
    destruct (write_chunks outs (record _ wk)) as [ek wk1].
    destruct (write_chunks outs (record _ wn)) as [en wn1].
    cbn [fst snd] in H.
    destruct H as [(-> & -> & Hl') | Hc].
    + left. split; [reflexivity | exact Hl'].
    + right. destruct ek, en; exact Hc.
Qed.

Lemma gw_Close_lock (k : nat) (z : gzip_Writer) (wk wn : world) :
  lockW k wk wn ->
  lockW k (snd (gw_Close z wk)) (snd (gw_Close z wn)) \/
  cutW k (snd (gw_Close z wk)) (snd (gw_Close z wn)).
Proof.
  intros Hl. unfold gw_Close. destruct (z_err z).
  - left. apply record_lock, Hl.
  - destruct (z_closed z).
    + left. apply record_lock, Hl.
    + pose proof (write_chunks_lock k (enc_close (z_enc z)) _ _
                    (record_lock k EvGwClose _ _ Hl)) as H.
      destruct (write_chunks _ (record _ wk)) as [ek wk1].
      destruct (write_chunks _ (record _ wn)) as [en wn1].
      cbn [fst snd] in H. destruct H as [(_ & _ & Hl') | Hc]; auto.
Qed.

(** The copy loop on two pipes in step: either both runs end the same way,
    still in step, or the impatient consumer has closed its end on the
    way. *)
Lemma copyBuffer_lock (k fuel : nat) :
  forall (z : gzip_Writer) (wk wn : world),
  lockW k wk wn ->
  (fst (copyBuffer fuel z wk) = fst (copyBuffer fuel z wn) /\
   lockW k (snd (copyBuffer fuel z wk)) (snd (copyBuffer fuel z wn))) \/
  cutW k (snd (copyBuffer fuel z wk)) (snd (copyBuffer fuel z wn)).
Proof.
  induction fuel as [|fuel IH]; intros z wk wn Hl.
  - left. split; [reflexivity | exact Hl].
  - cbn [copyBuffer].
    destruct (r_Read_lock k copy_buf_size wk wn Hl) as [Heq Hl1].
    destruct (r_Read copy_buf_size wk) as [[buf er] wk1].
    destruct (r_Read copy_buf_size wn) as [[buf' er'] wn1].
    cbn [fst snd] in Heq, Hl1. inversion Heq; subst buf' er'; clear Heq.
    destruct (0 <? length buf).
    + destruct (gw_Write_lock k z buf wk1 wn1 Hl1) as [[Heq Hl2] | Hc].
      * destruct (gw_Write z buf wk1) as [[[nk ek] zk] wk2].
        destruct (gw_Write z buf wn1) as [[[nn en] zn] wn2].
        cbn [fst snd] in Heq, Hl2. inversion Heq; subst nn en zn; clear Heq.
        destruct ek; [left; split; [reflexivity | exact Hl2]|].
        destruct (length buf =? nk);
          [|left; split; [reflexivity | exact Hl2]].
        destruct er; [left; split; [reflexivity | exact Hl2]|].
        apply IH, Hl2.
      * right.
        pose proof (cut_done k _ _ Hc) as Hdone.
        destruct (gw_Write z buf wk1) as [[[nk ek] zk] wk2].
        destruct (gw_Write z buf wn1) as [[[nn en] zn] wn2].
        cbn [fst snd] in Hc, Hdone.
        assert (Hk : forall (x : option error * gzip_Writer * world),
                  x = (let '(ew, z2, w2) :=
                         match ek with
                         | Some e => (Some e, zk, wk2)
                         | None => if length buf =? nk then (None, zk, wk2)
                                   else (Some ErrShortWrite, zk, wk2)
                         end in
                       match ew with
                       | Some e => (Some e, z2, w2)
                       | None =>
                           match er with
                           | Some e =>
                               (if is_EOF er then None else Some e, z2, w2)
                           | None => copyBuffer fuel z2 w2
                           end
                       end) ->
                  w_pipe (snd x) = w_pipe wk2).
        { intros x ->. destruct ek; [reflexivity|].
          destruct (length buf =? nk); [|reflexivity].
          destruct er; [reflexivity|]. apply copyBuffer_frozen, Hdone. }
        assert (Hn : forall (x : option error * gzip_Writer * world),
                  x = (let '(ew, z2, w2) :=
                         match en with
                         | Some e => (Some e, zn, wn2)
                         | None => if length buf =? nn then (None, zn, wn2)
                                   else (Some ErrShortWrite, zn, wn2)
                         end in
                       match ew with
                       | Some e => (Some e, z2, w2)
                       | None =>
                           match er with
                           | Some e =>
                               (if is_EOF er then None else Some e, z2, w2)
                           | None => copyBuffer fuel z2 w2
                           end
                       end) ->
                  grows wn2 (snd x)).
        { intros x ->. destruct en; [apply grows_refl|].
          destruct (length buf =? nn); [|apply grows_refl].
          destruct er; [apply grows_refl|]. apply copyBuffer_grows. }
        eapply cut_stable; [exact Hc | apply Hk; reflexivity
                           | apply Hn; reflexivity].
    + destruct er; [left; split; [reflexivity | exact Hl1]|].
      apply IH, Hl1.
Qed.

End Prefix.

Section PrefixTheorem.

Context {C : Compressor}.

Lemma GzipReadCloserLevel_finish (r : source) (level : Z)
  (consumer : option nat) :
  valid_level level = true ->
  GzipReadCloserLevel r level consumer
  = finish (copy_phase r level consumer).
Proof.
  intros H. rewrite (GzipReadCloserLevel_valid r level consumer H).
  unfold finish. destruct (copy_phase r level consumer) as [[err gw] w].
  reflexivity.
Qed.

(** On the error path nothing is delivered any more. *)
Lemma finish_error_delivered (e : error) (z : gzip_Writer) (w : world) :
  delivered (w_pipe (finish (Some e, z, w))) = delivered (w_pipe w).
Proof.
  unfold finish. cbn [r_Close snd record w_pipe pw_CloseWithError].
  rewrite gw_Close_frozen; [reflexivity|].
  cbn. unfold pipe_done; cbn.
  destruct (rerr (w_pipe w)); [reflexivity|].
  destruct (werr (w_pipe w)); reflexivity.
Qed.

Lemma finish_frozen (err : option error) (z : gzip_Writer) (w : world) :
  pipe_done (w_pipe w) = true ->
  delivered (w_pipe (finish (err, z, w))) = delivered (w_pipe w).
Proof.
  intros Hdone. destruct err as [e|]; [apply finish_error_delivered|].
  unfold finish.
  cbn [r_Close pw_Close snd record w_pipe closeWrite delivered].
  rewrite gw_Close_frozen; auto.
Qed.

Lemma finish_grows (err : option error) (z : gzip_Writer) (w : world) :
  grows w (finish (err, z, w)).
Proof.
  destruct err as [e|].
  - exists []. rewrite finish_error_delivered, app_nil_r. reflexivity.
  - unfold finish. cbn [r_Close pw_Close snd].
    destruct (gw_Close_grows z w) as [x Hx].
    exists x. cbn in *. exact Hx.
Qed.

Lemma lock_delivered (k : nat) (wk wn : world) :
  lockW k wk wn ->
  delivered (w_pipe wk) = firstn k (delivered (w_pipe wn)).
Proof.
  intros (_ & _ & _ & _ & _ & _ & Hd & j & _ & _ & Hlen).
  rewrite <- Hd. symmetry. apply firstn_all2. lia.
Qed.

Lemma cut_delivered (k : nat) (wk wn : world) :
  cutW k wk wn ->
  delivered (w_pipe wk) = firstn k (delivered (w_pipe wn)).
Proof. intros (_ & Hd & _). exact Hd. Qed.

Lemma finish_lock (k : nat) (err : option error) (z : gzip_Writer)
  (wk wn : world) :
  lockW k wk wn ->
  delivered (w_pipe (finish (err, z, wk)))
  = firstn k (delivered (w_pipe (finish (err, z, wn)))).
Proof.
  intros Hl. destruct err as [e|].
  - rewrite !finish_error_delivered. apply (lock_delivered k), Hl.
  - unfold finish.
    cbn [r_Close pw_Close snd record w_pipe closeWrite delivered].
    destruct (gw_Close_lock k z wk wn Hl) as [Hl' | Hc].
    + apply (lock_delivered k), Hl'.
    + apply (cut_delivered k), Hc.
Qed.

(** A consumer that takes [k] bytes and then closes the read end has
    received exactly the first [k] bytes of what a consumer that reads to
    the end receives (all of it when that is shorter): giving up early
    changes neither the bytes nor their order, whatever the level and the
    source. *)
Theorem GzipReadCloserLevel_abandon_prefix (r : source) (level : Z)
  (k : nat) :
  delivered (w_pipe (GzipReadCloserLevel r level (Some k)))
  = firstn k (delivered (w_pipe (GzipReadCloserLevel r level None))).
Proof.
  destruct (valid_level level) eqn:Hlevel.
  - rewrite !(GzipReadCloserLevel_finish r level _ Hlevel).
    unfold copy_phase, io_Copy. cbn [w_r].
    set (fuel := S (script_fuel (script r))).
    set (z := mkWriter (enc_init level) None false).
    set (wk := mkWorld r (io_Pipe (Some k)) []).
    set (wn := mkWorld r (io_Pipe None) []).
    assert (Hcut : forall wk1 wn1 ek zk en zn,
              cutW k wk1 wn1 ->
              delivered (w_pipe (finish (ek, zk, wk1)))
              = firstn k (delivered (w_pipe (finish (en, zn, wn1))))).
    { intros wk1 wn1 ek zk en zn Hc.
      rewrite finish_frozen by apply (cut_done k _ _ Hc).
      apply (cut_delivered k).
      eapply cut_stable; [exact Hc | reflexivity | apply finish_grows]. }
    destruct k as [|k'].
    + (* the consumer closes before anything is written *)
      assert (Hc : cutW 0 (snd (copyBuffer fuel z wk))
                     (snd (copyBuffer fuel z wn))).
      { eapply (cut_stable 0 wk wn).
        - unfold cutW, cut; cbn. splits; [discriminate | reflexivity | lia].
        - apply copyBuffer_frozen. reflexivity.
        - apply copyBuffer_grows. }
      destruct (copyBuffer fuel z wk) as [[ek zk] wk1].
      destruct (copyBuffer fuel z wn) as [[en zn] wn1].
      apply Hcut, Hc.
    + assert (Hl : lockW (S k') wk wn).
      { split; [reflexivity|]. unfold lock; cbn. splits; auto.
        exists (S k'). splits; auto. lia. }
      destruct (copyBuffer_lock (S k') fuel z wk wn Hl) as [[Heq Hl'] | Hc].
      * destruct (copyBuffer fuel z wk) as [[ek zk] wk1].
        destruct (copyBuffer fuel z wn) as [[en zn] wn1].
        cbn [fst snd] in Heq, Hl'. inversion Heq; subst.
        apply finish_lock, Hl'.
      * destruct (copyBuffer fuel z wk) as [[ek zk] wk1].
        destruct (copyBuffer fuel z wn) as [[en zn] wn1].
        apply Hcut, Hc.
  - rewrite !(GzipReadCloserLevel_invalid r level _ Hlevel).
    cbn [w_pipe closeWrite delivered].
    destruct k; cbn; reflexivity.
Qed.

End PrefixTheorem.
